(** * The execution store: optimistic locking over a versioned SQL table

    A shallow embedding of [executionStore] (package [database]): the
    statements it sends, a small relational engine that runs them over the
    [executions] table, the Go heap the record handles live in, and the
    store methods [Find], [Create], [Update], [UpdateOptLock], [List],
    [Count] and [Delete] written in a state-and-error monad.

    After the store come, each in a module of its own, the decision the
    web hook [usePRChecksDecision] takes on the checks of a pull request,
    the write request of the git RPC client, the rune map behind the
    instance name of the server, and the space controller's [ListSpaces]
    and [Move]. *)

From Stdlib Require Import ZArith Lia Ascii.
From stdpp Require Import base decidable option list numbers strings pretty.
From stdpp Require Import gmap.

Local Open Scope Z_scope.
Local Open Scope list_scope.

(** ** Columns and records *)

(** The columns of the [executions] table, in the order of
    [executionColumns]. *)
Inductive Column : Type :=
  | execution_id
  | execution_pipeline_id
  | execution_repo_id
  | execution_trigger
  | execution_number
  | execution_parent
  | execution_status
  | execution_error
  | execution_event
  | execution_action
  | execution_link
  | execution_timestamp
  | execution_title
  | execution_message
  | execution_before
  | execution_after
  | execution_ref
  | execution_source_repo
  | execution_source
  | execution_target
  | execution_author
  | execution_author_name
  | execution_author_email
  | execution_author_avatar
  | execution_sender
  | execution_params
  | execution_cron
  | execution_deploy
  | execution_deploy_id
  | execution_debug
  | execution_started
  | execution_finished
  | execution_created
  | execution_updated
  | execution_version.

Global Instance Column_eq_dec : EqDecision Column.
Proof. solve_decision. Defined.

(** What a column holds.  [VNull] is SQL's NULL; it also stands for the
    zero value of a field whose Go type is declared elsewhere. *)
Inductive Value : Type :=
  | VNull
  | VInt (n : Z)
  | VText (s : string)
  | VBool (b : bool).

Global Instance Value_eq_dec : EqDecision Value.
Proof. solve_decision. Defined.

Definition int_of (v : Value) : Z :=
  match v with VInt n => n | _ => 0 end.

(** [types.Execution] is declared outside the files at hand.  sqlx binds and
    scans it through the [db] tag of each field, one tag per column of
    [executionColumns].  The fields the store touches by name are [int64];
    the fields behind the other columns are kept as the values they hold. *)
Record Execution : Type := mkExecution {
  ID : Z;
  PipelineID : Z;
  Number : Z;
  Updated : Z;
  Version : Z;
  payload : Column → Value
}.

(** The field behind a column. *)
Definition col (e : Execution) (c : Column) : Value :=
  match c with
  | execution_id => VInt (ID e)
  | execution_pipeline_id => VInt (PipelineID e)
  | execution_number => VInt (Number e)
  | execution_updated => VInt (Updated e)
  | execution_version => VInt (Version e)
  | _ => payload e c
  end.

(** Writing the field behind a column; an [int64] field takes the integer
    the value stands for. *)
Definition setcol (c : Column) (v : Value) (e : Execution) : Execution :=
  match c with
  | execution_id =>
      mkExecution (int_of v) (PipelineID e) (Number e) (Updated e) (Version e)
                  (payload e)
  | execution_pipeline_id =>
      mkExecution (ID e) (int_of v) (Number e) (Updated e) (Version e)
                  (payload e)
  | execution_number =>
      mkExecution (ID e) (PipelineID e) (int_of v) (Updated e) (Version e)
                  (payload e)
  | execution_updated =>
      mkExecution (ID e) (PipelineID e) (Number e) (int_of v) (Version e)
                  (payload e)
  | execution_version =>
      mkExecution (ID e) (PipelineID e) (Number e) (Updated e) (int_of v)
                  (payload e)
  | _ =>
      mkExecution (ID e) (PipelineID e) (Number e) (Updated e) (Version e)
                  (λ c', if decide (c' = c) then v else payload e c')
  end.

(** Field-wise equality of two records. *)
Definition same_record (a b : Execution) : Prop := ∀ c, col a c = col b c.

(** The zero value [new(types.Execution)] starts from. *)
Definition zero_Execution : Execution :=
  mkExecution 0 0 0 0 0 (λ _, VNull).

(** [int64] arithmetic wraps around. *)
Definition wrap64 (z : Z) : Z := (z + 2 ^ 63) `mod` 2 ^ 64 - 2 ^ 63.

Definition min_int64 : Z := - 2 ^ 63.
Definition max_int64 : Z := 2 ^ 63 - 1.

(** ** Errors *)

(** What the SQL driver reports. *)
Inductive sql_error : Type :=
  | sqlErrNoRows
  | sqlUniqueViolation
  | sqlSyntaxError.

(** The [error] values that reach a caller of the store. *)
Inductive error : Type :=
  | ErrResourceNotFound
  | ErrDuplicate
  | ErrVersionConflict
  | ErrSQL (cause : sql_error) (msg : string)
  | ErrNilDereference
  | ErrCaller (msg : string).

Global Instance sql_error_eq_dec : EqDecision sql_error.
Proof. solve_decision. Defined.

Global Instance error_eq_dec : EqDecision error.
Proof. solve_decision. Defined.

(** Modelled from the spec: [database.ProcessSQLErrorf] is not among the
    files at hand.  By the error taxonomy a missing row surfaces as
    NotFoundError and a violated uniqueness constraint as a constraint
    violation; every other driver error is passed on, wrapped with the
    message. *)
Definition ProcessSQLErrorf (err : sql_error) (msg : string) : error :=
  match err with
  | sqlErrNoRows => ErrResourceNotFound
  | sqlUniqueViolation => ErrDuplicate
  | sqlSyntaxError => ErrSQL err msg
  end.

(** [errors.Is(err, gitness_store.ErrVersionConflict)]. *)
Definition is_version_conflict (err : error) : bool :=
  bool_decide (err = ErrVersionConflict).

(** ** The world: heap, table, key sequence and clock *)

(** A [*types.Execution] is an index into the heap. *)
Definition loc : Type := nat.

Record World : Type := mkWorld {
  heap : list Execution;     (* the records handles point to *)
  table : list Execution;    (* the rows of [executions], in store order *)
  next_id : Z;               (* the next generated [execution_id] *)
  clock : nat → Z;           (* successive readings of the wall clock, ms *)
  ticks : nat                (* how many readings were taken *)
}.

Definition set_heap (h : list Execution) (w : World) : World :=
  mkWorld h (table w) (next_id w) (clock w) (ticks w).

Definition set_table (t : list Execution) (w : World) : World :=
  mkWorld (heap w) t (next_id w) (clock w) (ticks w).

Definition set_next_id (n : Z) (w : World) : World :=
  mkWorld (heap w) (table w) n (clock w) (ticks w).

Definition set_ticks (n : nat) (w : World) : World :=
  mkWorld (heap w) (table w) (next_id w) (clock w) n.

(** State threaded through every call, with an error of type [E] or a
    result. *)
Definition ST (E A : Type) : Type := World → World * (E + A).

Global Instance ST_ret {E} : MRet (ST E) := λ A a w, (w, inr a).

Global Instance ST_bind {E} : MBind (ST E) := λ A B f m w,
  match m w with
  | (w', inl e) => (w', inl e)
  | (w', inr a) => f a w'
  end.

(** Store methods fail with an [error], driver calls with a [sql_error]. *)
Abbreviation M := (ST error).
Abbreviation Driver := (ST sql_error).

Definition fail {E A} (e : E) : ST E A := λ w, (w, inl e).

(** [if err != nil { return database.ProcessSQLErrorf(err, msg) }] *)
Definition or_return {A} (call : Driver A) (msg : string) : M A := λ w,
  match call w with
  | (w', inl err) => (w', inl (ProcessSQLErrorf err msg))
  | (w', inr a) => (w', inr a)
  end.

(** [new(types.Execution)], and any local whose address escapes. *)
Definition new (v : Execution) : M loc := λ w,
  (set_heap (heap w ++ [v]) w, inr (length (heap w))).

(** [*p]; a nil or dangling handle panics, reported as an error of its
    own. *)
Definition load (p : loc) : M Execution := λ w,
  match heap w !! p with
  | Some v => (w, inr v)
  | None => (w, inl ErrNilDereference)
  end.

(** [p.field = v] for the field tagged with column [c]. *)
Definition store_field (p : loc) (c : Column) (v : Value) : M unit := λ w,
  match heap w !! p with
  | Some r => (set_heap (<[p := setcol c v r]> (heap w)) w, inr tt)
  | None => (w, inl ErrNilDereference)
  end.

(** [time.Now().UnixMilli()] *)
Definition time_Now_UnixMilli : M Z := λ w,
  (set_ticks (S (ticks w)) w, inr (clock w (ticks w))).

(** ** Statements *)

(** A comma-separated list as it is spelled in a statement. *)
Inductive Tok (A : Type) : Type :=
  | Comma
  | Item (a : A).
Arguments Comma {A}.
Arguments Item {A} a.

(** The grammar of such a list: items with one comma between neighbours.
    A leading, trailing or doubled comma is a syntax error. *)
Fixpoint parse_list {A} (ts : list (Tok A)) : option (list A) :=
  match ts with
  | [Item a] => Some [a]
  | Item a :: Comma :: rest => cons a <$> parse_list rest
  | _ => None
  end.

(** The items of a list, whether or not it parses. *)
Fixpoint items {A} (ts : list (Tok A)) : list A :=
  match ts with
  | [] => []
  | Comma :: rest => items rest
  | Item a :: rest => a :: items rest
  end.

(** Operands: a column of the row, [:name] bound from a record, [$n] or
    [?] bound from the argument list, and [operand - k]. *)
Inductive Operand : Type :=
  | Col (c : Column)
  | Named (c : Column)
  | Positional (n : nat)
  | Minus (a : Operand) (k : Z).

Inductive Cond : Type :=
  | Eq (a b : Operand)
  | And (p q : Cond).

(** [column = operand] in a SET clause. *)
Record Assignment : Type := Assign { target : Column; source : Operand }.

Record SelectStmt : Type := {
  sel_columns : list (Tok Column);
  sel_where : Cond;
  sel_limit : option Z;
  sel_offset : option Z
}.

Record CountStmt : Type := { cnt_where : Cond }.

Record InsertStmt : Type := {
  ins_columns : list (Tok Column);
  ins_values : list (Tok Operand);
  ins_returning : Column
}.

Record UpdateStmt : Type := {
  upd_set : list (Tok Assignment);
  upd_where : Cond
}.

Record DeleteStmt : Type := { del_where : Cond }.

Definition executionColumns : list (Tok Column) :=
  [ Item execution_id
  ; Comma; Item execution_pipeline_id
  ; Comma; Item execution_repo_id
  ; Comma; Item execution_trigger
  ; Comma; Item execution_number
  ; Comma; Item execution_parent
  ; Comma; Item execution_status
  ; Comma; Item execution_error
  ; Comma; Item execution_event
  ; Comma; Item execution_action
  ; Comma; Item execution_link
  ; Comma; Item execution_timestamp
  ; Comma; Item execution_title
  ; Comma; Item execution_message
  ; Comma; Item execution_before
  ; Comma; Item execution_after
  ; Comma; Item execution_ref
  ; Comma; Item execution_source_repo
  ; Comma; Item execution_source
  ; Comma; Item execution_target
  ; Comma; Item execution_author
  ; Comma; Item execution_author_name
  ; Comma; Item execution_author_email
  ; Comma; Item execution_author_avatar
  ; Comma; Item execution_sender
  ; Comma; Item execution_params
  ; Comma; Item execution_cron
  ; Comma; Item execution_deploy
  ; Comma; Item execution_deploy_id
  ; Comma; Item execution_debug
  ; Comma; Item execution_started
  ; Comma; Item execution_finished
  ; Comma; Item execution_created
  ; Comma; Item execution_updated
  ; Comma; Item execution_version
  ].
Definition findQueryStmt : SelectStmt :=
  {| sel_columns := executionColumns;
     sel_where := And (Eq (Col execution_pipeline_id) (Positional 1))
                      (Eq (Col execution_number) (Positional 2));
     sel_limit := None;
     sel_offset := None |}.

Definition executionInsertColumns : list (Tok Column) :=
  [ Item execution_pipeline_id
  ; Comma; Item execution_repo_id
  ; Comma; Item execution_trigger
  ; Comma; Item execution_number
  ; Comma; Item execution_parent
  ; Comma; Item execution_status
  ; Comma; Item execution_error
  ; Comma; Item execution_event
  ; Comma; Item execution_action
  ; Comma; Item execution_link
  ; Comma; Item execution_timestamp
  ; Comma; Item execution_title
  ; Comma; Item execution_message
  ; Comma; Item execution_before
  ; Comma; Item execution_after
  ; Comma; Item execution_ref
  ; Comma; Item execution_source_repo
  ; Comma; Item execution_source
  ; Comma; Item execution_target
  ; Comma; Item execution_author
  ; Comma; Item execution_author_name
  ; Comma; Item execution_author_email
  ; Comma; Item execution_author_avatar
  ; Comma; Item execution_sender
  ; Comma; Item execution_params
  ; Comma; Item execution_cron
  ; Comma; Item execution_deploy
  ; Comma; Item execution_deploy_id
  ; Comma; Item execution_debug
  ; Comma; Item execution_started
  ; Comma; Item execution_finished
  ; Comma; Item execution_created
  ; Comma; Item execution_updated
  ; Comma; Item execution_version
  ].
Definition executionInsertValues : list (Tok Operand) :=
  [ Item (Named execution_pipeline_id)
  ; Comma; Item (Named execution_repo_id)
  ; Comma; Item (Named execution_trigger)
  ; Comma; Item (Named execution_number)
  ; Comma; Item (Named execution_parent)
  ; Comma; Item (Named execution_status)
  ; Comma; Item (Named execution_error)
  ; Comma; Item (Named execution_event)
  ; Comma; Item (Named execution_action)
  ; Comma; Item (Named execution_link)
  ; Comma; Item (Named execution_timestamp)
  ; Comma; Item (Named execution_title)
  ; Comma; Item (Named execution_message)
  ; Comma; Item (Named execution_before)
  ; Comma; Item (Named execution_after)
  ; Comma; Item (Named execution_ref)
  ; Comma; Item (Named execution_source_repo)
  ; Comma; Item (Named execution_source)
  ; Comma; Item (Named execution_target)
  ; Comma; Item (Named execution_author)
  ; Comma; Item (Named execution_author_name)
  ; Comma; Item (Named execution_author_email)
  ; Comma; Item (Named execution_author_avatar)
  ; Comma; Item (Named execution_sender)
  ; Comma; Item (Named execution_params)
  ; Comma; Item (Named execution_cron)
  ; Comma; Item (Named execution_deploy)
  ; Comma; Item (Named execution_deploy_id)
  ; Comma; Item (Named execution_debug)
  ; Comma; Item (Named execution_started)
  ; Comma; Item (Named execution_finished)
  ; Comma; Item (Named execution_created)
  ; Comma; Item (Named execution_updated)
  ; Comma; Item (Named execution_version)
  ].
Definition executionInsertStmt : InsertStmt :=
  {| ins_columns := executionInsertColumns;
     ins_values := executionInsertValues;
     ins_returning := execution_id |}.

(** The statement of [Update].  As it is written its SET clause reads
    [SET ,execution_status = :execution_status ,execution_error = ...]:
    a comma stands before the first assignment, and the tokens keep it. *)
Definition executionUpdateStmt : UpdateStmt :=
  {| upd_set :=
       [ Comma; Item (Assign execution_status (Named execution_status))
       ; Comma; Item (Assign execution_error (Named execution_error))
       ; Comma; Item (Assign execution_event (Named execution_event))
       ; Comma; Item (Assign execution_started (Named execution_started))
       ; Comma; Item (Assign execution_finished (Named execution_finished))
       ; Comma; Item (Assign execution_updated (Named execution_updated))
       ; Comma; Item (Assign execution_version (Named execution_version))
       ];
     upd_where := And (Eq (Col execution_id) (Named execution_id))
                      (Eq (Col execution_version)
                          (Minus (Named execution_version) 1)) |}.

Definition executionDeleteStmt : DeleteStmt :=
  {| del_where := And (Eq (Col execution_pipeline_id) (Positional 1))
                      (Eq (Col execution_number) (Positional 2)) |}.

(** ** The relational engine *)

(** What a statement is run with: the record bound to its [:name]
    parameters and the positional arguments. *)
Record Bindings : Type := {
  named : Execution;
  positional : list Value
}.

Definition bind_record (e : Execution) : Bindings :=
  {| named := e; positional := [] |}.

Definition bind_args (args : list Value) : Bindings :=
  {| named := zero_Execution; positional := args |}.

(** The value of an operand.  Subtraction is exact: the one at hand,
    [:execution_version - 1], leaves the range of [int64] only for a
    version that has wrapped, and then equals no stored version. *)
Fixpoint eval (b : Bindings) (row : Execution) (o : Operand) : Value :=
  match o with
  | Col c => col row c
  | Named c => col (named b) c
  | Positional n => default VNull (positional b !! pred n)
  | Minus a k =>
      match eval b row a with
      | VInt n => VInt (n - k)
      | _ => VNull
      end
  end.

(** SQL equality.  NULL equals nothing; a text operand set against an
    integer is read as the decimal numeral it spells. *)
Definition sql_eq (x y : Value) : bool :=
  match x, y with
  | VInt a, VInt b => bool_decide (a = b)
  | VInt a, VText s => bool_decide (s = pretty a)
  | VText s, VInt a => bool_decide (s = pretty a)
  | VText s, VText t => bool_decide (s = t)
  | VBool a, VBool b => bool_decide (a = b)
  | _, _ => false
  end.

Fixpoint holds (b : Bindings) (row : Execution) (c : Cond) : bool :=
  match c with
  | Eq x y => sql_eq (eval b row x) (eval b row y)
  | And p q => holds b row p && holds b row q
  end.

Definition matching (b : Bindings) (c : Cond) (t : list Execution)
  : list Execution :=
  List.filter (λ r, holds b r c) t.

(** Copy the selected columns of a row into a destination record. *)
Definition scan (cols : list Column) (row dst : Execution) : Execution :=
  foldr (λ c d, setcol c (col row c) d) dst cols.

(** SELECT: the matching rows in table order, after OFFSET and LIMIT. *)
Definition run_select (s : SelectStmt) (b : Bindings) (t : list Execution)
  : sql_error + (list Column * list Execution) :=
  match parse_list (sel_columns s) with
  | None => inl sqlSyntaxError
  | Some cols =>
      let hits := matching b (sel_where s) t in
      let hits := match sel_offset s with
                  | Some n => drop (Z.to_nat n) hits
                  | None => hits
                  end in
      let hits := match sel_limit s with
                  | Some n => take (Z.to_nat n) hits
                  | None => hits
                  end in
      inr (cols, hits)
  end.

(** SELECT count( * ) *)
Definition run_count (s : CountStmt) (b : Bindings) (t : list Execution)
  : Value :=
  VInt (Z.of_nat (length (matching b (cnt_where s) t))).

(** Modelled from the spec: the schema of [executions] is not among the
    files at hand.  [execution_id] is the generated primary key, and the
    identity a record is found and deleted by, pipeline and number, is
    unique: creating a second record with an existing identity fails. *)
Definition clashes (row r : Execution) : bool :=
  bool_decide (ID r = ID row)
  || (bool_decide (PipelineID r = PipelineID row)
      && bool_decide (Number r = Number row)).

(** INSERT ... RETURNING: the key comes from the sequence unless the
    statement lists it; a column the statement leaves out is NULL. *)
Definition run_insert (s : InsertStmt) (b : Bindings) (key : Z)
    (t : list Execution) : sql_error + (list Execution * Value) :=
  match parse_list (ins_columns s), parse_list (ins_values s) with
  | Some cols, Some vals =>
      if bool_decide (length cols = length vals) then
        let row0 := setcol execution_id (VInt key) zero_Execution in
        let row := foldr (λ cv r, setcol cv.1 (eval b zero_Execution cv.2) r)
                         row0 (zip cols vals) in
        if existsb (clashes row) t then inl sqlUniqueViolation
        else inr (t ++ [row], col row (ins_returning s))
      else inl sqlSyntaxError
  | _, _ => inl sqlSyntaxError
  end.

(** The assignments of a SET clause, each right-hand side read in the row
    as it was. *)
Definition assign (asg : list Assignment) (b : Bindings) (row : Execution)
  : Execution :=
  foldr (λ a r, setcol (target a) (eval b row (source a)) r) row asg.

(** UPDATE: every matching row is rewritten; the count of matching rows
    is the number of rows affected.  No statement at hand assigns a key
    column, so no constraint is checked again. *)
Definition run_update (s : UpdateStmt) (b : Bindings) (t : list Execution)
  : sql_error + (list Execution * Z) :=
  match parse_list (upd_set s) with
  | None => inl sqlSyntaxError
  | Some asg =>
      inr ((λ r, if holds b r (upd_where s) then assign asg b r else r) <$> t,
           Z.of_nat (length (matching b (upd_where s) t)))
  end.

(** DELETE: every matching row goes. *)
Definition run_delete (s : DeleteStmt) (b : Bindings) (t : list Execution)
  : list Execution * Z :=
  (List.filter (λ r, negb (holds b r (del_where s))) t,
   Z.of_nat (length (matching b (del_where s) t))).

(** ** The driver calls of sqlx *)

Inductive ExecStmt : Type :=
  | ExecUpdate (s : UpdateStmt)
  | ExecDelete (s : DeleteStmt).

Inductive RowStmt : Type :=
  | RowInsert (s : InsertStmt)
  | RowCount (s : CountStmt).

(** [db.BindNamed]: every name of the statements at hand is the tag of a
    field, so binding a record goes through. *)
Definition BindNamed {S} (stmt : S) (arg : Execution) : Driver (S * Bindings) :=
  mret (stmt, bind_record arg).

(** [db.GetContext]: the first row of the result is scanned into [dst]. *)
Definition GetContext (dst : loc) (q : SelectStmt) (args : list Value)
  : Driver unit := λ w,
  match run_select q (bind_args args) (table w) with
  | inl e => (w, inl e)
  | inr (cols, []) => (w, inl sqlErrNoRows)
  | inr (cols, row :: _) =>
      (set_heap (alter (scan cols row) dst (heap w)) w, inr tt)
  end.

Fixpoint scan_rows (cols : list Column) (rows : list Execution)
  : Driver (list loc) :=
  match rows with
  | [] => mret []
  | r :: rest =>
      p ← (λ w, (set_heap (heap w ++ [scan cols r zero_Execution]) w,
                 inr (length (heap w))));
      ps ← scan_rows cols rest;
      mret (p :: ps)
  end.

(** [db.SelectContext]: one fresh record per row of the result. *)
Definition SelectContext (q : SelectStmt) (args : list Value)
  : Driver (list loc) := λ w,
  match run_select q (bind_args args) (table w) with
  | inl e => (w, inl e)
  | inr (cols, rows) => scan_rows cols rows w
  end.

(** [db.QueryRowContext(...).Scan(&v)] *)
Definition QueryRowContext_Scan (q : RowStmt) (b : Bindings) : Driver Value :=
  λ w,
  match q with
  | RowInsert s =>
      match run_insert s b (next_id w) (table w) with
      | inl e => (w, inl e)
      | inr (t, v) => (set_next_id (next_id w + 1) (set_table t w), inr v)
      end
  | RowCount s => (w, inr (run_count s b (table w)))
  end.

(** [db.ExecContext]; the result carries the number of rows affected. *)
Definition ExecContext (q : ExecStmt) (b : Bindings) : Driver Z := λ w,
  match q with
  | ExecUpdate s =>
      match run_update s b (table w) with
      | inl e => (w, inl e)
      | inr (t, n) => (set_table t w, inr n)
      end
  | ExecDelete s =>
      let '(t, n) := run_delete s b (table w) in (set_table t w, inr n)
  end.

(** [result.RowsAffected()] *)
Definition RowsAffected (result : Z) : Driver Z := mret result.

(** ** The store *)

(** [Find] returns an execution given a pipeline ID and an execution
    number. *)
Definition Find (pipelineID executionNum : Z) : M loc :=
  dst ← new zero_Execution;
  _ ← or_return
        (GetContext dst findQueryStmt [VInt pipelineID; VInt executionNum])
        "Failed to find execution";
  mret dst.

(** [Create] creates a new execution in the datastore. *)
Definition Create (execution : loc) : M unit :=
  record ← load execution;
  '(query, arg) ← or_return (BindNamed executionInsertStmt record)
                            "Failed to bind execution object";
  id ← or_return (QueryRowContext_Scan (RowInsert query) arg)
                 "Execution query failed";
  store_field execution execution_id id.

(** [Update] tries to update an execution in the datastore with optimistic
    locking.  The statement is a parameter; the store's own is
    [executionUpdateStmt]. *)
Definition Update_with (stmt : UpdateStmt) (e : loc) : M unit :=
  updatedAt ← time_Now_UnixMilli;
  execution ← load e;
  let execution :=
    setcol execution_version (VInt (wrap64 (Version execution + 1)))
           execution in
  let execution := setcol execution_updated (VInt updatedAt) execution in
  '(query, arg) ← or_return (BindNamed stmt execution)
                            "Failed to bind execution object";
  result ← or_return (ExecContext (ExecUpdate query) arg)
                     "Failed to update execution";
  count ← or_return (RowsAffected result)
                    "Failed to get number of updated rows";
  if bool_decide (count = 0) then fail ErrVersionConflict
  else
    _ ← store_field e execution_version (VInt (Version execution));
    store_field e execution_updated (VInt (Updated execution)).

Definition Update : loc → M unit := Update_with executionUpdateStmt.

(** What one turn of the loop of [UpdateOptLock] ends in. *)
Inductive Turn : Type :=
  | Again (execution : loc)
  | Return (r : error + loc).

Section OptLock.
(** The loop calls [s.Update] and [s.Find]; it is written once over any
    pair of them, and over any mutation function. *)
Variable Update_ : loc → M unit.
Variable Find_ : Z → Z → M loc.
Variable mutateFn : loc → M unit.

(** The body of the [for] loop. *)
Definition turn (execution : loc) (w : World) : World * Turn :=
  match (v ← load execution; new v) w with       (* dup := *execution *)
  | (w, inl err) => (w, Return (inl err))
  | (w, inr dup) =>
  match mutateFn dup w with
  | (w, inl err) => (w, Return (inl err))
  | (w, inr _) =>
  match Update_ dup w with
  | (w, inr _) => (w, Return (inr dup))
  | (w, inl err) =>
  if negb (is_version_conflict err) then (w, Return (inl err))
  else
    match (v ← load execution; Find_ (PipelineID v) (Number v)) w with
    | (w, inl err) => (w, Return (inl err))
    | (w, inr found) => (w, Again found)
    end
  end end end.

(** [UpdateOptLock] updates the execution using the optimistic locking
    mechanism.  The loop has no bound of its own; [fuel] counts the
    turns the model may take, and [None] says they did not suffice. *)
Fixpoint UpdateOptLock_with (fuel : nat) (execution : loc) (w : World)
  : option (World * (error + loc)) :=
  match fuel with
  | O => None
  | S fuel =>
      match turn execution w with
      | (w, Return r) => Some (w, r)
      | (w, Again execution) => UpdateOptLock_with fuel execution w
      end
  end.
End OptLock.

Definition UpdateOptLock
  : (loc → M unit) → nat → loc → World → option (World * (error + loc)) :=
  UpdateOptLock_with Update Find.

(** Modelled from the spec: [types.Pagination] is not among the files at
    hand.  A pagination descriptor is [{page, size}], both at least 1. *)
Record Pagination : Type := { Page : Z; Size : Z }.

(** Modelled from the spec: the helper [database.Limit] is not among the
    files at hand.  A descriptor is mapped to LIMIT size. *)
Definition Limit (size : Z) : Z := size.

(** Modelled from the spec: the helper [database.Offset] is not among the
    files at hand.  A descriptor is mapped to OFFSET (page-1)*size. *)
Definition Offset (page size : Z) : Z := (page - 1) * size.

(** [List] lists the executions for a given pipeline ID. *)
Definition List (pipelineID : Z) (pagination : Pagination) : M (list loc) :=
  let stmt :=
    {| sel_columns := executionColumns;
       sel_where := Eq (Col execution_pipeline_id) (Positional 1);
       sel_limit := Some (Limit (Size pagination));
       sel_offset := Some (Offset (Page pagination) (Size pagination)) |} in
  let args := [VText (pretty pipelineID)] in
  or_return (SelectContext stmt args) "Failed executing custom list query".

(** [Count] of executions of a pipeline. *)
Definition Count (pipelineID : Z) : M Z :=
  let stmt := {| cnt_where := Eq (Col execution_pipeline_id) (Positional 1) |} in
  let args := [VInt pipelineID] in
  count ← or_return (QueryRowContext_Scan (RowCount stmt) (bind_args args))
                    "Failed executing count query";
  mret (int_of count).

(** [Delete] deletes an execution given a pipeline ID and an execution
    number. *)
Definition Delete (pipelineID executionNum : Z) : M unit :=
  _ ← or_return
        (ExecContext (ExecDelete executionDeleteStmt)
                     (bind_args [VInt pipelineID; VInt executionNum]))
        "Could not delete execution";
  mret tt.

(** ** Sample data *)

Definition sample (pipeline number version updated : Z) (title : string)
  : Execution :=
  setcol execution_pipeline_id (VInt pipeline)
    (setcol execution_number (VInt number)
      (setcol execution_version (VInt version)
        (setcol execution_updated (VInt updated)
          (setcol execution_title (VText title) zero_Execution)))).

Definition stored (id : Z) (e : Execution) : Execution :=
  setcol execution_id (VInt id) e.

Definition world0 : World :=
  {| heap := []; table := []; next_id := 1; clock := λ n, 1000 + Z.of_nat n;
     ticks := 0 |}.

(** One pipeline with one execution at version 3, and a handle on it. *)
Definition build_v3 : Execution := stored 1 (sample 7 1 3 500 "build").

Definition w_build : World :=
  {| heap := [build_v3]; table := [build_v3]; next_id := 2;
     clock := λ n, 1000 + Z.of_nat n; ticks := 0 |}.

(** A handle that still carries version 2 of that execution. *)
Definition w_stale : World :=
  {| heap := [setcol execution_version (VInt 2) build_v3];
     table := [build_v3]; next_id := 2;
     clock := λ n, 1000 + Z.of_nat n; ticks := 0 |}.

(** A handle on an execution that has been deleted. *)
Definition w_deleted : World :=
  {| heap := [build_v3]; table := []; next_id := 2;
     clock := λ n, 1000 + Z.of_nat n; ticks := 0 |}.

(** Twenty-five executions of pipeline 7, numbered 1 to 25, each followed
    by one of pipeline 8. *)
Definition w_25 : World :=
  {| heap := [];
     table := flat_map (λ n, [stored (2 * n - 1) (sample 7 n 0 500 "build");
                              stored (2 * n) (sample 8 n 0 500 "deploy")])
                       (seqZ 1 25);
     next_id := 51;
     clock := λ n, 1000 + Z.of_nat n; ticks := 0 |}.

(** ** The clauses of the statement of [Update] *)

(** The statement of [Update] with the comma that opens its SET clause
    dropped: the same assignments and the same predicate. *)
Definition without_leading_comma (s : UpdateStmt) : UpdateStmt :=
  {| upd_set := match upd_set s with Comma :: ts => ts | ts => ts end;
     upd_where := upd_where s |}.

(** A statement that assigns what [executionUpdateStmt] assigns, under the
    same predicate, wherever its commas stand. *)
Definition same_clauses (s : UpdateStmt) : Prop :=
  items (upd_set s) = items (upd_set executionUpdateStmt)
  ∧ upd_where s = upd_where executionUpdateStmt.

(** The columns the SET clause of [executionUpdateStmt] assigns. *)
Definition written_columns : list Column :=
  target <$> items (upd_set executionUpdateStmt).

(** A row of [executions] matched by the predicate of the statement of
    [Update] when the statement is bound to [arg]. *)
Definition hit (arg row : Execution) : bool :=
  holds (bind_record arg) row (upd_where executionUpdateStmt).

(** A row as [Update] leaves it when its statement runs bound to [arg]. *)
Definition rewritten (arg row : Execution) : Execution :=
  if hit arg row
  then assign (items (upd_set executionUpdateStmt)) (bind_record arg) row
  else row.

(** The local copy [Update] binds to its statement: the caller's record
    with the version stepped and the clock reading as [Updated]. *)
Definition bound (r : Execution) (now : Z) : Execution :=
  setcol execution_updated (VInt now)
    (setcol execution_version (VInt (wrap64 (Version r + 1))) r).

(** What [Update] leaves in the caller's record once it has committed. *)
Definition mirrored (r : Execution) (now : Z) : Execution :=
  setcol execution_updated (VInt (Updated (bound r now)))
    (setcol execution_version (VInt (Version (bound r now))) r).

(** The values an [int64] takes. *)
Definition int64 (z : Z) : Prop := min_int64 ≤ z ≤ max_int64.

(** ** The retry loop as the spec words it *)

Section ApplyMutation.
Variable Update_ : loc → M unit.
Variable Find_ : Z → Z → M loc.
Variable mutationFn : loc → M unit.

(** Step 1 of the algorithm: a private copy of the current snapshot. *)
Definition private_copy (record : loc) (v : Execution) (w : World)
    (copy : loc) (w1 : World) : Prop :=
  heap w !! record = Some v
  ∧ copy = length (heap w)
  ∧ w1 = set_heap (heap w ++ [v]) w.

(** [ApplyMutation record w w' r]: started on [record] in world [w], the
    algorithm ends in world [w'] with [r].  One rule per way out of a
    round: steps 2, 4, 5 and 6, and a failing re-read in step 5.  The
    last two rules are Go's panic on a nil handle. *)
Inductive ApplyMutation : loc → World → World → error + loc → Prop :=
  | AM_mutation_fails record w v copy w1 w2 err :
      private_copy record v w copy w1 →
      mutationFn copy w1 = (w2, inl err) →
      ApplyMutation record w w2 (inl err)
  | AM_committed record w v copy w1 w2 w3 :
      private_copy record v w copy w1 →
      mutationFn copy w1 = (w2, inr tt) →
      Update_ copy w2 = (w3, inr tt) →
      ApplyMutation record w w3 (inr copy)
  | AM_conflict record w v copy w1 w2 w3 latest v' w4 w' r :
      private_copy record v w copy w1 →
      mutationFn copy w1 = (w2, inr tt) →
      Update_ copy w2 = (w3, inl ErrVersionConflict) →
      heap w3 !! record = Some v' →
      Find_ (PipelineID v') (Number v') w3 = (w4, inr latest) →
      ApplyMutation latest w4 w' r →
      ApplyMutation record w w' r
  | AM_reread_fails record w v copy w1 w2 w3 v' w4 err :
      private_copy record v w copy w1 →
      mutationFn copy w1 = (w2, inr tt) →
      Update_ copy w2 = (w3, inl ErrVersionConflict) →
      heap w3 !! record = Some v' →
      Find_ (PipelineID v') (Number v') w3 = (w4, inl err) →
      ApplyMutation record w w4 (inl err)
  | AM_update_fails record w v copy w1 w2 w3 err :
      private_copy record v w copy w1 →
      mutationFn copy w1 = (w2, inr tt) →
      Update_ copy w2 = (w3, inl err) →
      err ≠ ErrVersionConflict →
      ApplyMutation record w w3 (inl err)
  | AM_nil record w :
      heap w !! record = None →
      ApplyMutation record w w (inl ErrNilDereference)
  | AM_nil_reread record w v copy w1 w2 w3 :
      private_copy record v w copy w1 →
      mutationFn copy w1 = (w2, inr tt) →
      Update_ copy w2 = (w3, inl ErrVersionConflict) →
      heap w3 !! record = None →
      ApplyMutation record w w3 (inl ErrNilDereference).

(** Where the loop of [UpdateOptLock] stands after [k] turns that all
    ended in a conflict and a re-read. *)
Fixpoint retries (k : nat) (execution : loc) (w : World)
  : option (loc * World) :=
  match k with
  | O => Some (execution, w)
  | S k =>
      match turn Update_ Find_ mutationFn execution w with
      | (w, Again execution) => retries k execution w
      | (_, Return _) => None
      end
  end.
End ApplyMutation.

(** ** Stores and mutation functions to run the loop over *)

(** A store whose [Update] reports a conflict until the clock has been
    read [n] times, and whose [Find] hands the same record back. *)
Definition contended_Update (n : nat) (e : loc) : M unit :=
  now ← time_Now_UnixMilli;
  if bool_decide (now < Z.of_nat n) then fail ErrVersionConflict else mret tt.

Definition contended_Find (e : loc) (pipelineID executionNum : Z) : M loc :=
  mret e.

Definition no_mutation (e : loc) : M unit := mret tt.

Definition w_contended : World :=
  {| heap := [build_v3]; table := [build_v3]; next_id := 2;
     clock := λ n, Z.of_nat n; ticks := 0 |}.

(** A mutation function that goes through the first time it is called and
    fails once the clock has been read. *)
Definition fails_after_first (e : loc) : M unit := λ w,
  if bool_decide (ticks w = 0%nat) then (w, inr tt)
  else (w, inl (ErrCaller "rejected")).

(** A mutation that marks the copy as running and renames it. *)
Definition retitle (p : loc) : M unit :=
  _ ← store_field p execution_status (VText "running");
  store_field p execution_title (VText "release").

(** ** What a call may and may not touch *)

(** A row and what it became agree outside the written columns. *)
Definition keeps_other_columns (row row' : Execution) : Prop :=
  ∀ c, c ∉ written_columns → col row' c = col row c.

Definition frame (t t' : list Execution) : Prop :=
  Forall2 keeps_other_columns t t'.

(** A mutation function with no I/O of its own leaves the table and its
    key sequence alone. *)
Definition no_io (mutateFn : loc → M unit) : Prop :=
  ∀ p w, table (mutateFn p w).1 = table w
         ∧ next_id (mutateFn p w).1 = next_id w.

(** A mutation function that writes to the record it is handed and to no
    other. *)
Definition local_mutation (mutateFn : loc → M unit) : Prop :=
  ∀ p w,
    (length (heap w) ≤ length (heap (mutateFn p w).1))%nat
    ∧ ∀ q, q ≠ p → heap (mutateFn p w).1 !! q = heap w !! q.

(** The records below [n] are in [w'] what they were in [w]. *)
Definition keeps (n : nat) (w w' : World) : Prop :=
  ∀ q, (q < n)%nat → heap w' !! q = heap w !! q.

(** ** [Find], [Create], [List] and [Delete] *)

(** The rows [Find] and [Delete] address: one pipeline, one number. *)
Definition found_by (pipelineID executionNum : Z) (r : Execution) : bool :=
  bool_decide (PipelineID r = pipelineID)
  && bool_decide (Number r = executionNum).

(** A record as [Find] and [List] hand it out: every column scanned into a
    fresh record. *)
Definition scanned (row : Execution) : Execution :=
  scan (items executionColumns) row zero_Execution.

(** The row [executionInsertStmt] adds when it is bound to [r] and the
    sequence stands at [key]. *)
Definition inserted (key : Z) (r : Execution) : Execution :=
  foldr (λ cv row, setcol cv.1 (eval (bind_record r) zero_Execution cv.2) row)
        (setcol execution_id (VInt key) zero_Execution)
        (zip (items executionInsertColumns) (items executionInsertValues)).

(** [Create(r)] followed by [Find] on the identity of [r]; the result is
    the record found. *)
Definition create_then_find (r : Execution) : M Execution :=
  p ← new r;
  _ ← Create p;
  created ← load p;
  q ← Find (PipelineID created) (Number created);
  load q.

(** The executions of a pipeline, in store order. *)
Definition of_pipeline (pipelineID : Z) (t : list Execution) : list Execution :=
  List.filter (λ r, bool_decide (PipelineID r = pipelineID)) t.

(** The spec on [Delete]: an identity that does not exist is answered
    with the not-found error. *)
Definition Delete_reports_missing : Prop :=
  ∀ pipelineID executionNum w,
    List.filter (found_by pipelineID executionNum) (table w) = [] →
    (Delete pipelineID executionNum w).2 = inl ErrResourceNotFound.

(** The spec on [Create]: version and updatedAt are assigned by the store,
    so what is persisted for them does not depend on what the caller's
    record carried. *)
Definition Create_assigns_version_and_timestamp : Prop :=
  ∀ r r' w found found',
    (create_then_find r w).2 = inr found →
    (create_then_find r' w).2 = inr found' →
    Version found = Version found' ∧ Updated found = Updated found'.

(** ** Sequences of store operations *)

(** The record with key [id] is persisted at version [v]. *)
Definition persisted (t : list Execution) (id v : Z) : Prop :=
  ∃ r, r ∈ t ∧ ID r = id ∧ Version r = v.

(** Keys are unique and were all drawn from the sequence. *)
Definition wf (w : World) : Prop :=
  NoDup (ID <$> table w) ∧ Forall (λ r, ID r < next_id w) (table w).

(** What callers of the store do, one after the other.  Between two calls
    a caller may write whatever it likes into the records it holds. *)
Inductive Op : Type :=
  | CallerWrites (f : list Execution → list Execution)
  | CallFind (pipelineID executionNum : Z)
  | CallCreate (execution : loc)
  | CallUpdate (e : loc)
  | CallUpdateOptLock (fuel : nat) (execution : loc) (mutateFn : loc → M unit)
  | CallList (pipelineID : Z) (pagination : Pagination)
  | CallCount (pipelineID : Z)
  | CallDelete (pipelineID executionNum : Z).

Definition well_behaved (op : Op) : Prop :=
  match op with
  | CallUpdateOptLock _ _ mutateFn => no_io mutateFn
  | _ => True
  end.

(** The key of the record a committed [Update] was called on, read off
    the handle once the call is over. *)
Definition committed_on (w' : World) (e : loc) : list Z :=
  match heap w' !! e with
  | Some r => [ID r]
  | None => []
  end.

(** One operation: the world it leaves and the keys of the records an
    [Update] committed on while it ran.  [None]: [UpdateOptLock] was still
    going round when its turns ran out. *)
Definition run_op (stmt : UpdateStmt) (op : Op) (w : World)
  : option (World * list Z) :=
  match op with
  | CallerWrites f => Some (set_heap (f (heap w)) w, [])
  | CallFind pipelineID executionNum =>
      Some ((Find pipelineID executionNum w).1, [])
  | CallCreate execution => Some ((Create execution w).1, [])
  | CallUpdate e =>
      match Update_with stmt e w with
      | (w', inr _) => Some (w', committed_on w' e)
      | (w', inl _) => Some (w', [])
      end
  | CallUpdateOptLock fuel execution mutateFn =>
      match UpdateOptLock_with (Update_with stmt) Find mutateFn
                               fuel execution w with
      | Some (w', inr copy) => Some (w', committed_on w' copy)
      | Some (w', inl _) => Some (w', [])
      | None => None
      end
  | CallList pipelineID pagination =>
      Some ((List pipelineID pagination w).1, [])
  | CallCount pipelineID => Some ((Count pipelineID w).1, [])
  | CallDelete pipelineID executionNum =>
      Some ((Delete pipelineID executionNum w).1, [])
  end.

Fixpoint run (stmt : UpdateStmt) (ops : list Op) (w : World)
  : option (World * list Z) :=
  match ops with
  | [] => Some (w, [])
  | op :: ops =>
      match run_op stmt op w with
      | Some (w1, log1) =>
          match run stmt ops w1 with
          | Some (w', log) => Some (w', log1 ++ log)
          | None => None
          end
      | None => None
      end
  end.

(** How many committed updates of the record with key [id] a log holds. *)
Definition commits (id : Z) (log : list Z) : Z :=
  Z.of_nat (length (List.filter (Z.eqb id) log)).

(** From [w] to [w'] every persisted version moved by the number of
    commits that [log] holds for its record, and no key came back. *)
Definition stepped (log : list Z) (w w' : World) : Prop :=
  wf w →
  wf w'
  ∧ next_id w ≤ next_id w'
  ∧ ∀ id v', id < next_id w → persisted (table w') id v' →
             ∃ v, persisted (table w) id v ∧ v' = v + commits id log.

(** A caller that overwrites the version in its handle with one of its
    own making. *)
Definition forget_version (h : list Execution) : list Execution :=
  alter (setcol execution_version (VInt 99)) 0%nat h.

(** A sequence of calls on the execution of [w_build]: an update that
    commits, a handle spoilt by its caller, an update that conflicts, a
    retry loop that conflicts, re-reads and commits, and calls that leave
    versions alone. *)
Definition busy_day : list Op :=
  [ CallUpdate 0%nat;
    CallerWrites forget_version;
    CallUpdate 0%nat;
    CallUpdateOptLock 2 0%nat retitle;
    CallCreate 0%nat;
    CallDelete 8 1;
    CallFind 7 1;
    CallCount 7 ].

(** * The decision on the checks of a pull request

    The body of the [useMemo] callback of [usePRChecksDecision]: from the
    status check results it tallies the checks by state, settles the
    overall status, and sets colour, message and the flag that stops the
    polling. *)

Module PRChecks.

(** [ExecutionState] is declared with the execution status component;
    these are the members the hook names. *)
Inductive ExecutionState : Type :=
  | PENDING | RUNNING | SUCCESS | FAILURE | ERROR | SKIPPED | KILLED.

Global Instance ExecutionState_eq_dec : EqDecision ExecutionState.
Proof. solve_decision. Defined.

(** [check.status] as the service sends it: a state, or a value the hook
    has no case for. *)
Inductive Status : Type :=
  | Known (s : ExecutionState)
  | Unrecognized (s : string).

Global Instance Status_eq_dec : EqDecision Status.
Proof. solve_decision. Defined.

Record Check : Type := { status : Status }.

(** The colours the hook sets. *)
Inductive Color : Type :=
  | GREEN_500 | GREEN_50 | GREEN_800 | RED_900 | RED_50
  | ORANGE_900 | ORANGE_100 | GREY_600 | GREY_100.

Record Counts : Type := {
  error : nat;
  failure : nat;
  pending : nat;
  running : nat;
  success : nat;
  skipped : nat;
  killed : nat
}.

Definition DEFAULT_COUNTS : Counts :=
  {| error := 0; failure := 0; pending := 0; running := 0; success := 0;
     skipped := 0; killed := 0 |}.

(** [_count[s]], the tally kept under the name of the state. *)
Definition tally (s : ExecutionState) (c : Counts) : nat :=
  match s with
  | ERROR => error c
  | FAILURE => failure c
  | PENDING => pending c
  | RUNNING => running c
  | SUCCESS => success c
  | SKIPPED => skipped c
  | KILLED => killed c
  end.

(** [_count[s]++] *)
Definition bump (s : ExecutionState) (c : Counts) : Counts :=
  match s with
  | ERROR =>
      {| error := S (error c); failure := failure c; pending := pending c;
         running := running c; success := success c; skipped := skipped c;
         killed := killed c |}
  | FAILURE =>
      {| error := error c; failure := S (failure c); pending := pending c;
         running := running c; success := success c; skipped := skipped c;
         killed := killed c |}
  | PENDING =>
      {| error := error c; failure := failure c; pending := S (pending c);
         running := running c; success := success c; skipped := skipped c;
         killed := killed c |}
  | RUNNING =>
      {| error := error c; failure := failure c; pending := pending c;
         running := S (running c); success := success c;
         skipped := skipped c; killed := killed c |}
  | SUCCESS =>
      {| error := error c; failure := failure c; pending := pending c;
         running := running c; success := S (success c);
         skipped := skipped c; killed := killed c |}
  | SKIPPED =>
      {| error := error c; failure := failure c; pending := pending c;
         running := running c; success := success c;
         skipped := S (skipped c); killed := killed c |}
  | KILLED =>
      {| error := error c; failure := failure c; pending := pending c;
         running := running c; success := success c; skipped := skipped c;
         killed := S (killed c) |}
  end.

(** A message: the text the hook starts with, or what [stringSubstitute]
    is asked to make of the string of a state, a count and the total. *)
Inductive Message : Type :=
  | Text (s : string)
  | Substituted (state : ExecutionState) (count total : nat).

(** The state the hook keeps between renders. *)
Record State : Type := {
  count : Counts;
  color : Color;
  background : Color;
  message : Message;
  complete : bool
}.

(** The values of the [useState] calls. *)
Definition initial : State :=
  {| count := DEFAULT_COUNTS; color := GREEN_500; background := GREEN_50;
     message := Text ""; complete := true |}.

Definition setCount (c : Counts) (st : State) : State :=
  {| count := c; color := color st; background := background st;
     message := message st; complete := complete st |}.

Definition setColor (c : Color) (st : State) : State :=
  {| count := count st; color := c; background := background st;
     message := message st; complete := complete st |}.

Definition setBackground (c : Color) (st : State) : State :=
  {| count := count st; color := color st; background := c;
     message := message st; complete := complete st |}.

Definition setMessage (m : Message) (st : State) : State :=
  {| count := count st; color := color st; background := background st;
     message := m; complete := complete st |}.

Definition setComplete (b : bool) (st : State) : State :=
  {| count := count st; color := color st; background := background st;
     message := message st; complete := b |}.

(** The states the [switch] has a case for. *)
Definition counted (s : Status) : option ExecutionState :=
  match s with
  | Known ERROR => Some ERROR
  | Known FAILURE => Some FAILURE
  | Known RUNNING => Some RUNNING
  | Known PENDING => Some PENDING
  | Known SUCCESS => Some SUCCESS
  | _ => None
  end.

(** The [for] loop over the checks. *)
Fixpoint for_checks (data : list Check) (_count : Counts) (st : State)
  : Counts * State :=
  match data with
  | [] => (_count, st)
  | check :: rest =>
      match counted (status check) with
      | Some s =>
          let _count := bump s _count in
          for_checks rest _count (setCount _count st)
      | None => for_checks rest _count st
      end
  end.

(** What the branch taken for state [s] sets. *)
Definition decide_on (s : ExecutionState) (fg bg : Color) (_count : Counts)
    (total : nat) (st : State) : option ExecutionState * State :=
  (Some s,
   setMessage (Substituted s (tally s _count) total)
     (setBackground bg (setColor fg st))).

(** The callback: [data] is [None] while there is no response. *)
Definition decision (data : option (list Check)) (st : State)
  : option ExecutionState * State :=
  match data with
  | None | Some [] => (None, setComplete false st)
  | Some data =>
      let total := length data in
      let '(_count, st) := for_checks data DEFAULT_COUNTS st in
      let '(_status, st) :=
        if bool_decide (error _count ≠ 0%nat)
        then decide_on ERROR RED_900 RED_50 _count total st
        else if bool_decide (failure _count ≠ 0%nat)
        then decide_on FAILURE RED_900 RED_50 _count total st
        else if bool_decide (killed _count ≠ 0%nat)
        then decide_on KILLED RED_900 RED_50 _count total st
        else if bool_decide (running _count ≠ 0%nat)
        then decide_on RUNNING ORANGE_900 ORANGE_100 _count total st
        else if bool_decide (pending _count ≠ 0%nat)
        then decide_on PENDING GREY_600 GREY_100 _count total st
        else if bool_decide (skipped _count ≠ 0%nat)
        then decide_on SKIPPED GREY_600 GREY_100 _count total st
        else if bool_decide (success _count ≠ 0%nat)
        then decide_on SUCCESS GREEN_800 GREEN_50 _count total st
        else (None, st) in
      (_status,
       setComplete (negb (bool_decide (pending _count ≠ 0%nat))
                    && negb (bool_decide (running _count ≠ 0%nat))) st)
  end.

(** How many checks are in state [s]. *)
Definition checks_in (s : ExecutionState) (data : list Check) : nat :=
  length (List.filter (λ check, bool_decide (status check = Known s)) data).

(** Some check is in state [s]. *)
Definition has (s : ExecutionState) (data : list Check) : Prop :=
  ∃ check, check ∈ data ∧ status check = Known s.

End PRChecks.

(** * The write request of the git RPC client *)

Module GitRPC.

Record Identity : Type := { Name : string; Email : string }.

(** [WriteParams] contains the base parameters for write operations. *)
Record WriteParams : Type := {
  RepoUID : string;
  Actor : Identity;
  EnvVars : gmap string string
}.

(** The messages of package [rpc].  A field that holds a pointer is an
    [option], [None] for nil. *)
Record rpc_Identity : Type := { rpc_Name : string; rpc_Email : string }.

Record rpc_EnvVar : Type := { EnvVar_Name : string; EnvVar_Value : string }.

Record rpc_WriteRequest : Type := {
  RepoUid : string;
  rpc_Actor : option rpc_Identity;
  rpc_EnvVars : list (option rpc_EnvVar)
}.

(** The loop [for k, v := range p.EnvVars { out.EnvVars[i] = ...; i++ }]
    over the entries in the order the iteration visits them.  An index
    outside the slice is a run-time panic, [None]. *)
Fixpoint for_range (entries : list (string * string)) (i : nat)
    (out : list (option rpc_EnvVar)) : option (list (option rpc_EnvVar)) :=
  match entries with
  | [] => Some out
  | (k, v) :: entries =>
      if decide (i < length out)%nat
      then for_range entries (S i)
             (<[i := Some {| EnvVar_Name := k; EnvVar_Value := v |}]> out)
      else None
  end.

(** [range] is the order in which the language, which leaves it open,
    visits the entries of a map. *)
Definition mapToRPCWriteRequest
    (range : gmap string string → list (string * string)) (p : WriteParams)
  : option rpc_WriteRequest :=
  let out_EnvVars := replicate (size (EnvVars p)) None in
  out_EnvVars ← for_range (range (EnvVars p)) 0 out_EnvVars;
  Some {| RepoUid := RepoUID p;
          rpc_Actor := Some {| rpc_Name := Name (Actor p);
                               rpc_Email := Email (Actor p) |};
          rpc_EnvVars := out_EnvVars |}.

(** An entry of the request read back as a pair. *)
Definition entry (v : rpc_EnvVar) : string * string :=
  (EnvVar_Name v, EnvVar_Value v).

(** Parameters to try the request on. *)
Definition push_params : WriteParams :=
  {| RepoUID := "repo-1";
     Actor := {| Name := "ada"; Email := "ada@example.com" |};
     EnvVars := <["GIT_DIR" := "/data/repo-1"]>
                  (<["GIT_TRACE" := "1"]> ∅) |}.

End GitRPC.

(** * The instance name of the server *)

Module Server.

(** A rune is an [int32]. *)
Definition int32 (z : Z) : Z := (z + 2 ^ 31) `mod` 2 ^ 32 - 2 ^ 31.

Definition rune (c : ascii) : Z := Z.of_N (N_of_ascii c).

Arguments rune c%_char.

(** The function [getSanitizedMachineName] hands to [runes.Map]. *)
Definition sanitized (r : Z) : Z :=
  if bool_decide (rune "A" ≤ r ∧ r ≤ rune "Z") then int32 (r + 32)
  else if bool_decide (rune "a" ≤ r ∧ r ≤ rune "z") then r
  else if bool_decide (rune "0" ≤ r ∧ r ≤ rune "9") then r
  else if bool_decide (r = rune "-" ∨ r = rune ".") then r
  else rune "_".

(** The runes the comment above the chain says are left: a-z, 0-9, '-'
    and '.'. *)
Definition left_alone (r : Z) : Prop :=
  rune "a" ≤ r ≤ rune "z" ∨ rune "0" ≤ r ≤ rune "9"
  ∨ r = rune "-" ∨ r = rune ".".

End Server.

(** * The space controller *)

Module SpaceController.

(** An error of a collaborator, or [fmt.Errorf("msg: %w", err)]. *)
Inductive error : Type :=
  | Err (text : string)
  | Errorf (msg : string) (err : error).

Inductive Permission : Type := PermissionSpaceView | PermissionSpaceEdit.

(** [types.Space], the fields the controller reads or writes. *)
Record Space : Type := { ID : Z; ParentID : Z; UID : string }.

Record SpacePathSegment : Type := {
  Segment_ParentID : Z;
  Segment_UID : string;
  SpaceID : Z;
  IsPrimary : bool;
  CreatedBy : Z;
  Created : Z;
  Updated : Z
}.

(** [auth.Session], of which the controller reads [Principal.ID]. *)
Record Session : Type := { Principal_ID : Z }.

(** [MoveInput] is used for moving a space; [UID] is a [*string]. *)
Record MoveInput : Type := { Input_UID : option string }.

Section Controller.

(** The state of what the controller talks to, and the filter, which it
    only hands on. *)
Context {W SpaceFilter : Type}.

(** A call of a collaborator, with what it answered. *)
Inductive Call : Type :=
  | call_FindByRef (spaceRef : string) (answer : error + Space)
  | call_CheckSpace (session : Session) (space : Space)
      (permission : Permission) (orPublic : bool) (answer : option error)
  | call_uidCheck (uid : string) (isRoot : bool) (answer : option error)
  | call_Count (spaceID : Z) (filter : SpaceFilter) (answer : error + Z)
  | call_List (spaceID : Z) (filter : SpaceFilter)
      (answer : error + list Space)
  | call_DeletePrimarySegment (spaceID : Z) (answer : option error)
  | call_Now (answer : Z)
  | call_InsertSegment (segment : SpacePathSegment) (answer : option error)
  | call_Update (space : Space) (answer : Space * option error)
  | call_Begin (readOnly : bool) (answer : option error)
  | call_Rollback
  | call_Commit (answer : option error).

(** The collaborators of the controller, each a function of the state.
    [spaceStore_Update] is handed a pointer: it answers what it leaves in
    the space along with its error. *)
Record Controller : Type := {
  spaceStore_FindByRef : string → W → W * (error + Space);
  spaceStore_Count : Z → SpaceFilter → W → W * (error + Z);
  spaceStore_List : Z → SpaceFilter → W → W * (error + list Space);
  spaceStore_Update : Space → W → W * (Space * option error);
  spacePathStore_DeletePrimarySegment : Z → W → W * option error;
  spacePathStore_InsertSegment : SpacePathSegment → W → W * option error;
  apiauth_CheckSpace :
    Session → Space → Permission → bool → W → W * option error;
  uidCheck : string → bool → W → W * option error;
  time_Now : W → W * Z;
  tx_Begin : bool → W → W * option error;
  tx_Rollback : W → W;
  tx_Commit : W → W * option error
}.

(** A method of the controller: it changes the state, adds to the log of
    calls, and returns an error or a value. *)
Definition Ctl (A : Type) : Type :=
  W * list Call → W * list Call * (error + A).

Global Instance Ctl_ret : MRet Ctl := λ A a s, (s, inr a).

Global Instance Ctl_bind : MBind Ctl := λ A B f m s,
  match m s with
  | (s', inl err) => (s', inl err)
  | (s', inr a) => f a s'
  end.

(** [v, err := collaborator(...); if err != nil { return err }] *)
Definition call {R A} (collaborator : W → W * R) (logged : R → Call)
    (result : R → error + A) : Ctl A := λ '(w, log),
  let '(w', answer) := collaborator w in
  ((w', log ++ [logged answer]), result answer).

Definition nil_or (err : option error) : error + unit :=
  match err with
  | Some err => inl err
  | None => inr tt
  end.

Definition left_in_place (answer : Space * option error) : error + Space :=
  match answer.2 with
  | Some err => inl err
  | None => inr answer.1
  end.

(** [if err != nil { return fmt.Errorf("msg: %w", err) }] *)
Definition wrapped {A} (msg : string) (m : Ctl A) : Ctl A := λ s,
  match m s with
  | (s', inl err) => (s', inl (Errorf msg err))
  | (s', inr a) => (s', inr a)
  end.

Context (c : Controller).

(** Modelled from the spec: the storage backend exposes
    ambient-transaction scoping (begin, commit, rollback), and operations
    across records are wrapped in a single ambient transaction with
    rollback on error.  So [WithTx] begins a transaction, runs the function
    once inside it, rolls back and returns the function's error if it has
    one, and otherwise commits and returns what the commit answers.  The
    value is what the function has assigned to the variables it
    captures. *)
Definition WithTx {A} (txFn : Ctl A) (readOnly : bool) : Ctl A := λ s,
  match call (tx_Begin c readOnly) (call_Begin readOnly) nil_or s with
  | (s, inl err) => (s, inl err)
  | (s, inr _) =>
      match txFn s with
      | ((w, log), inl err) =>
          ((tx_Rollback c w, log ++ [call_Rollback]), inl err)
      | (s, inr a) =>
          match call (tx_Commit c) call_Commit nil_or s with
          | (s, inl err) => (s, inl err)
          | (s, inr _) => (s, inr a)
          end
      end
  end.

(** [ListSpacesNoAuth] lists spaces WITHOUT checking PermissionSpaceView. *)
Definition ListSpacesNoAuth (spaceID : Z) (filter : SpaceFilter)
  : Ctl (list Space * Z) :=
  WithTx
    (count ← wrapped "failed to count child spaces"
               (call (spaceStore_Count c spaceID filter)
                     (call_Count spaceID filter) id);
     spaces ← wrapped "failed to list child spaces"
                (call (spaceStore_List c spaceID filter)
                      (call_List spaceID filter) id);
     mret (spaces, count))
    true.

(** [ListSpaces] lists the child spaces of a space. *)
Definition ListSpaces (session : Session) (spaceRef : string)
    (filter : SpaceFilter) : Ctl (list Space * Z) :=
  space ← call (spaceStore_FindByRef c spaceRef) (call_FindByRef spaceRef) id;
  _ ← call (apiauth_CheckSpace c session space PermissionSpaceView true)
           (call_CheckSpace session space PermissionSpaceView true) nil_or;
  ListSpacesNoAuth (ID space) filter.

Definition hasChanges (i : MoveInput) (space : Space) : bool :=
  match Input_UID i with
  | Some uid => bool_decide (uid ≠ UID space)
  | None => false
  end.

Definition sanitizeMoveInput (input : MoveInput) (isRoot : bool) : Ctl unit :=
  match Input_UID input with
  | Some uid => call (uidCheck c uid isRoot) (call_uidCheck uid isRoot) nil_or
  | None => mret tt
  end.

(** The function returns the space as the transaction leaves it. *)
Definition moveInner (session : Session) (space : Space)
    (inUID : option string) : Ctl Space :=
  WithTx
    (_ ← wrapped "failed to delete primary path segment"
           (call (spacePathStore_DeletePrimarySegment c (ID space))
                 (call_DeletePrimarySegment (ID space)) nil_or);
     let space :=
       match inUID with
       | Some uid =>
           {| ID := ID space; ParentID := ParentID space; UID := uid |}
       | None => space
       end in
     now ← call (time_Now c) call_Now inr;
     let newPrimarySegment :=
       {| Segment_ParentID := ParentID space;
          Segment_UID := UID space;
          SpaceID := ID space;
          IsPrimary := true;
          CreatedBy := Principal_ID session;
          Created := now;
          Updated := now |} in
     _ ← wrapped "failed to create new primary path segment"
           (call (spacePathStore_InsertSegment c newPrimarySegment)
                 (call_InsertSegment newPrimarySegment) nil_or);
     wrapped "failed to update the space in the db"
       (call (spaceStore_Update c space) (call_Update space) left_in_place))
    false.

(** [Move] moves a space to a new UID. *)
Definition Move (session : Session) (spaceRef : string) (input : MoveInput)
  : Ctl Space :=
  space ← call (spaceStore_FindByRef c spaceRef) (call_FindByRef spaceRef) id;
  _ ← call (apiauth_CheckSpace c session space PermissionSpaceEdit false)
           (call_CheckSpace session space PermissionSpaceEdit false) nil_or;
  _ ← wrapped "failed to sanitize input"
        (sanitizeMoveInput input (bool_decide (ParentID space = 0)));
  if negb (hasChanges input space) then mret space
  else moveInner session space (Input_UID input).

End Controller.

Arguments Call : clear implicits.
Arguments Controller : clear implicits.

(** A call that writes, or opens a transaction that may. *)
Definition writes {SpaceFilter} (call : Call SpaceFilter) : Prop :=
  match call with
  | call_DeletePrimarySegment _ _ | call_InsertSegment _ _
  | call_Update _ _ | call_Begin false _ => True
  | _ => False
  end.

(** Collaborators to try the controller on: one space, every check passes,
    and nothing fails. *)
Definition the_space : Space := {| ID := 7; ParentID := 0; UID := "old" |}.

Definition agreeable : Controller nat unit :=
  {| spaceStore_FindByRef := λ _ w, (w, inr the_space);
     spaceStore_Count := λ _ _ w, (w, inr 1);
     spaceStore_List := λ _ _ w, (w, inr [the_space]);
     spaceStore_Update := λ space w, (S w, (space, None));
     spacePathStore_DeletePrimarySegment := λ _ w, (S w, None);
     spacePathStore_InsertSegment := λ _ w, (S w, None);
     apiauth_CheckSpace := λ _ _ _ _ w, (w, None);
     uidCheck := λ _ _ w, (w, None);
     time_Now := λ w, (w, 1700000000000);
     tx_Begin := λ _ w, (w, None);
     tx_Rollback := λ w, w;
     tx_Commit := λ w, (w, None) |}.

End SpaceController.

(** * Properties *)

(** ** Records and lists *)

Lemma col_setcol c v e c' :
  col (setcol c v e) c' =
  if decide (c' = c) then col (setcol c v zero_Execution) c else col e c'.
Proof. destruct c, c'; reflexivity. Qed.

Lemma col_setcol_ne c v e c' : c' ≠ c → col (setcol c v e) c' = col e c'.
Proof. intros Hne. rewrite col_setcol. by destruct (decide (c' = c)). Qed.

Lemma parse_list_items {A} (ts : list (Tok A)) l :
  parse_list ts = Some l → items ts = l.
Proof.
  revert l. induction ts as [ts IH] using (induction_ltof1 _ (@length _)).
  unfold ltof in IH. intros l.
  destruct ts as [|[|a] [|[|b] rest]]; simpl; try discriminate.
  - by intros [= <-].
  - destruct (parse_list rest) as [l'|] eqn:Hp; simpl; [|discriminate].
    intros [= <-]. f_equal. apply IH; [simpl; lia | done].
Qed.

(** ** The statement of [Update] as it is written *)

(** The SET clause does not parse: it opens with a comma. *)
Lemma executionUpdateStmt_syntax :
  parse_list (upd_set executionUpdateStmt) = None.
Proof. reflexivity. Qed.

(** So the engine rejects the statement whatever it is bound to, and
    [Update] returns the driver's error, having read the clock and nothing
    else. *)
Lemma Update_rejected e w r :
  heap w !! e = Some r →
  Update e w = (set_ticks (S (ticks w)) w,
                inl (ErrSQL sqlSyntaxError "Failed to update execution")).
Proof.
  intros He. unfold Update, Update_with, mbind, ST_bind, time_Now_UnixMilli, load.
  simpl. rewrite He. reflexivity.
Qed.

(** C1 (code defect).  The spec: [Update] called with the currently
    persisted version succeeds, the persisted version goes up by one and
    the new version and timestamp are mirrored onto the handle.  Here the
    handle and the row both carry version 3, and [Update] returns the
    driver's syntax error; the row keeps version 3 and the handle is as it
    was. *)
Theorem C1_Update_current_version_rejected :
  Version <$> heap w_build !! 0%nat = Some 3
  ∧ Version <$> table w_build !! 0%nat = Some 3
  ∧ ID <$> heap w_build !! 0%nat = ID <$> table w_build !! 0%nat
  ∧ ∃ w',
      Update 0%nat w_build
      = (w', inl (ErrSQL sqlSyntaxError "Failed to update execution"))
      ∧ table w' = table w_build
      ∧ heap w' = heap w_build.
Proof.
  repeat split; try reflexivity.
  eexists. split; [by apply (Update_rejected _ _ build_v3)|].
  split; reflexivity.
Qed.

(** C2 (code defect).  The spec: [Update] called with a version other than
    the persisted one, or on a deleted record, fails with the version
    conflict error.  The persisted record is indeed untouched, but the
    error is the driver's syntax error, which [errors.Is] does not take
    for a version conflict. *)
Theorem C2_Update_stale_version_not_a_conflict :
  Version <$> heap w_stale !! 0%nat = Some 2
  ∧ Version <$> table w_stale !! 0%nat = Some 3
  ∧ (∃ w' err,
       Update 0%nat w_stale = (w', inl err)
       ∧ is_version_conflict err = false
       ∧ table w' = table w_stale)
  ∧ (∃ w' err,
       Update 0%nat w_deleted = (w', inl err)
       ∧ is_version_conflict err = false
       ∧ table w' = table w_deleted).
Proof.
  repeat split; try reflexivity.
  - eexists _, _. split; [by eapply Update_rejected|]. done.
  - eexists _, _. split; [by eapply Update_rejected|]. done.
Qed.

(** ** The retry loop *)

Section OptLockFacts.
Variable Update_ : loc → M unit.
Variable Find_ : Z → Z → M loc.
Variable mutateFn : loc → M unit.

Local Abbreviation turn := (turn Update_ Find_ mutateFn).
Local Abbreviation loop := (UpdateOptLock_with Update_ Find_ mutateFn).
Local Abbreviation Spec := (ApplyMutation Update_ Find_ mutateFn).

Lemma loop_S fuel execution w :
  loop (S fuel) execution w =
  match turn execution w with
  | (w, Return r) => Some (w, r)
  | (w, Again execution) => loop fuel execution w
  end.
Proof. reflexivity. Qed.

(** More fuel never changes a result. *)
Lemma loop_more fuel fuel' execution w res :
  loop fuel execution w = Some res → (fuel ≤ fuel')%nat →
  loop fuel' execution w = Some res.
Proof.
  revert fuel' execution w.
  induction fuel as [|fuel IH]; intros fuel' execution w; [done|].
  intros Hrun Hle. destruct fuel' as [|fuel']; [lia|].
  rewrite loop_S in *. destruct (turn execution w) as [w1 [e1|r]]; [|done].
  apply IH; [done | lia].
Qed.

Lemma turn_copy execution w v :
  heap w !! execution = Some v →
  (v ← load execution; new v) w
  = (set_heap (heap w ++ [v]) w, inr (length (heap w))).
Proof.
  intros Hv. unfold mbind, ST_bind, load, new. by rewrite Hv.
Qed.

Lemma turn_nil execution w :
  heap w !! execution = None →
  turn execution w = (w, Return (inl ErrNilDereference)).
Proof.
  intros Hv. unfold turn, mbind, ST_bind, load. by rewrite Hv.
Qed.

(** The loop returns only what the algorithm of the spec returns. *)
Lemma loop_sound fuel execution w w' r :
  loop fuel execution w = Some (w', r) → Spec execution w w' r.
Proof.
  revert execution w.
  induction fuel as [|fuel IH]; intros execution w; [done|].
  rewrite loop_S. unfold turn.
  destruct (heap w !! execution) as [v|] eqn:Hv; cycle 1.
  { unfold mbind, ST_bind, load. rewrite Hv. intros [= <- <-].
    by apply AM_nil. }
  rewrite (turn_copy _ _ _ Hv).
  assert (Hcopy : private_copy execution v w (length (heap w))
                               (set_heap (heap w ++ [v]) w)) by done.
  destruct (mutateFn _ _) as [w2 [err|[]]] eqn:Hm.
  { intros [= <- <-]. by eapply AM_mutation_fails. }
  destruct (Update_ _ w2) as [w3 [err|[]]] eqn:Hu; cycle 1.
  { intros [= <- <-]. by eapply AM_committed. }
  unfold is_version_conflict. case_bool_decide as Herr; simpl; cycle 1.
  { intros [= <- <-]. by eapply AM_update_fails. }
  subst err. unfold mbind, ST_bind, load.
  destruct (heap w3 !! execution) as [v'|] eqn:Hv'; cycle 1.
  { intros [= <- <-]. by eapply AM_nil_reread. }
  destruct (Find_ _ _ w3) as [w4 [err|latest]] eqn:Hf.
  { intros [= <- <-]. by eapply AM_reread_fails. }
  intros Hrest. eapply AM_conflict; eauto.
Qed.

(** And it returns all of it, given the turns it takes. *)
Lemma loop_complete execution w w' r :
  Spec execution w w' r → ∃ fuel, loop fuel execution w = Some (w', r).
Proof.
  induction 1 as
    [record w v copy w1 w2 err Hc Hm
    |record w v copy w1 w2 w3 Hc Hm Hu
    |record w v copy w1 w2 w3 latest v' w4 w' r Hc Hm Hu Hv' Hf _ [fuel IH]
    |record w v copy w1 w2 w3 v' w4 err Hc Hm Hu Hv' Hf
    |record w v copy w1 w2 w3 err Hc Hm Hu Herr
    |record w Hv
    |record w v copy w1 w2 w3 Hc Hm Hu Hv'];
    try destruct Hc as (Hv & -> & ->).
  - exists 1%nat. rewrite loop_S. unfold turn.
    by rewrite (turn_copy _ _ _ Hv), Hm.
  - exists 1%nat. rewrite loop_S. unfold turn.
    by rewrite (turn_copy _ _ _ Hv), Hm, Hu.
  - exists (S fuel). rewrite loop_S. unfold turn.
    rewrite (turn_copy _ _ _ Hv), Hm, Hu. simpl.
    unfold mbind, ST_bind, load. by rewrite Hv', Hf.
  - exists 1%nat. rewrite loop_S. unfold turn.
    rewrite (turn_copy _ _ _ Hv), Hm, Hu. simpl.
    unfold mbind, ST_bind, load. by rewrite Hv', Hf.
  - exists 1%nat. rewrite loop_S. unfold turn.
    rewrite (turn_copy _ _ _ Hv), Hm, Hu.
    unfold is_version_conflict. by rewrite bool_decide_eq_false_2.
  - exists 1%nat. by rewrite loop_S, turn_nil.
  - exists 1%nat. rewrite loop_S. unfold turn.
    rewrite (turn_copy _ _ _ Hv), Hm, Hu. simpl.
    unfold mbind, ST_bind, load. by rewrite Hv'.
Qed.

(** After [k] conflicting turns the loop goes on from where they led. *)
Lemma loop_after_retries k fuel e0 w0 execution w :
  retries Update_ Find_ mutateFn k e0 w0 = Some (execution, w) →
  loop (k + fuel) e0 w0 = loop fuel execution w.
Proof.
  revert e0 w0. induction k as [|k IH]; intros e0 w0; simpl.
  - by intros [= -> ->].
  - destruct (turn e0 w0) as [w1 [e1|r]]; [|done]. apply IH.
Qed.

(** A turn whose mutation fails ends the loop with that error, in the
    world the mutation function left. *)
Lemma turn_mutation_fails execution w v w1 err :
  heap w !! execution = Some v →
  mutateFn (length (heap w)) (set_heap (heap w ++ [v]) w) = (w1, inl err) →
  turn execution w = (w1, Return (inl err)).
Proof.
  intros Hv Hm. unfold turn. by rewrite (turn_copy _ _ _ Hv), Hm.
Qed.
End OptLockFacts.


Lemma contended_turn_conflict n w v :
  heap w !! 0%nat = Some v →
  clock w (ticks w) < Z.of_nat n →
  turn (contended_Update n) (contended_Find 0%nat) no_mutation 0%nat w
  = (set_ticks (S (ticks w)) (set_heap (heap w ++ [v]) w), Again 0%nat).
Proof.
  intros Hv Hlt. unfold turn. rewrite (turn_copy _ _ _ Hv).
  unfold no_mutation, contended_Update, contended_Find, mbind, ST_bind,
    mret, ST_ret, time_Now_UnixMilli, load, fail. simpl.
  rewrite bool_decide_eq_true_2 by done. simpl.
  rewrite lookup_app_l by (by apply lookup_lt_Some in Hv).
  by rewrite Hv.
Qed.

Lemma contended_turn_commit n w v :
  heap w !! 0%nat = Some v →
  Z.of_nat n ≤ clock w (ticks w) →
  turn (contended_Update n) (contended_Find 0%nat) no_mutation 0%nat w
  = (set_ticks (S (ticks w)) (set_heap (heap w ++ [v]) w),
     Return (inr (length (heap w)))).
Proof.
  intros Hv Hle. unfold turn. rewrite (turn_copy _ _ _ Hv).
  unfold no_mutation, contended_Update, contended_Find, mbind, ST_bind,
    mret, ST_ret, time_Now_UnixMilli, load, fail. simpl.
  rewrite bool_decide_eq_false_2 by lia. done.
Qed.

(** Under that store the loop takes [n] conflicting turns before it
    commits: [n] turns are not enough, [n + 1] are. *)
Lemma contended_loop n j w v :
  heap w !! 0%nat = Some v →
  (∀ i, clock w i = Z.of_nat i) →
  (ticks w + j = n)%nat →
  UpdateOptLock_with (contended_Update n) (contended_Find 0%nat) no_mutation
                     j 0%nat w = None
  ∧ ∃ w' copy,
      UpdateOptLock_with (contended_Update n) (contended_Find 0%nat)
                         no_mutation (S j) 0%nat w = Some (w', inr copy).
Proof.
  revert w v. induction j as [|j IH]; intros w v Hv Hclock Hn.
  - split; [done|]. rewrite loop_S.
    rewrite (contended_turn_commit _ _ v) by (rewrite ?Hclock; done || lia).
    by eexists _, _.
  - assert (Hturn := contended_turn_conflict n w v Hv).
    rewrite Hclock in Hturn. specialize (Hturn ltac:(lia)).
    destruct (IH (set_ticks (S (ticks w)) (set_heap (heap w ++ [v]) w)) v)
      as [Hnone Hsome].
    + simpl. rewrite lookup_app_l by (by apply lookup_lt_Some in Hv). done.
    + done.
    + simpl. lia.
    + split.
      * by rewrite loop_S, Hturn.
      * by rewrite loop_S, Hturn.
Qed.

(** C3.  [UpdateOptLock] is the retry loop of the spec: whatever [Update],
    [Find] and mutation function it runs over, it returns a result exactly
    when the algorithm of the spec (a private copy, the mutation, [Update];
    the committed copy on success; on a version conflict a re-read through
    [Find] and a new round on the record found; any other error of
    [Update], and any error of [Find], returned as it is) ends with that
    result in that world.  And no number of turns bounds it: for every [n]
    there is a store under which it goes through [n] conflicts and commits
    in turn [n + 1]. *)
Theorem C3_UpdateOptLock_is_the_retry_loop :
  (∀ Update_ Find_ mutateFn execution w w' r,
     (∃ fuel,
        UpdateOptLock_with Update_ Find_ mutateFn fuel execution w
        = Some (w', r))
     ↔ ApplyMutation Update_ Find_ mutateFn execution w w' r)
  ∧ (∀ n, ∃ Update_ Find_ mutateFn execution w,
       UpdateOptLock_with Update_ Find_ mutateFn n execution w = None
       ∧ ∃ w' copy,
           UpdateOptLock_with Update_ Find_ mutateFn (S n) execution w
           = Some (w', inr copy)).
Proof.
  split.
  - intros U F m execution w w' r. split.
    + intros [fuel Hrun]. by eapply loop_sound.
    + apply loop_complete.
  - intros n.
    exists (contended_Update n), (contended_Find 0%nat), no_mutation,
      0%nat, w_contended.
    by apply (contended_loop n n w_contended build_v3).
Qed.

(** C4.  When the mutation function fails in some turn of the loop, be it
    the first or one reached after [k] conflicts, [UpdateOptLock] returns
    that very error, and the world it leaves is the one the mutation
    function left: the turn is the same under every [Update] and [Find],
    so neither was called in it, and no further turn is taken. *)
Theorem C4_mutation_error_aborts
    Update_ Find_ mutateFn k e0 w0 execution w v w1 err fuel :
  retries Update_ Find_ mutateFn k e0 w0 = Some (execution, w) →
  heap w !! execution = Some v →
  mutateFn (length (heap w)) (set_heap (heap w ++ [v]) w) = (w1, inl err) →
  UpdateOptLock_with Update_ Find_ mutateFn (k + S fuel) e0 w0
  = Some (w1, inl err)
  ∧ ∀ Update' Find',
      turn Update' Find' mutateFn execution w = (w1, Return (inl err)).
Proof.
  intros Hk Hv Hm. split.
  - rewrite (loop_after_retries _ _ _ _ _ _ _ _ _ Hk), loop_S.
    by rewrite (turn_mutation_fails _ _ _ _ _ _ _ _ Hv Hm).
  - intros U' F'. by apply (turn_mutation_fails _ _ _ _ _ v).
Qed.

Lemma C4_mutation_error_aborts_witness :
  ∃ w1,
    UpdateOptLock_with (Update_with (without_leading_comma executionUpdateStmt))
                       Find fails_after_first 2 0%nat w_stale
    = Some (w1, inl (ErrCaller "rejected"))
    ∧ table w1 = table w_stale.
Proof.
  eexists. split.
  - eapply proj1,
      (C4_mutation_error_aborts
         (Update_with (without_leading_comma executionUpdateStmt))
         Find fails_after_first 1 0%nat w_stale 2%nat _ _ _ _ 0).
    + reflexivity.
    + reflexivity.
    + reflexivity.
  - reflexivity.
Defined.

(** ** [Update] under any statement *)

Lemma Update_with_nil stmt e w :
  heap w !! e = None →
  Update_with stmt e w = (set_ticks (S (ticks w)) w, inl ErrNilDereference).
Proof.
  intros He. unfold Update_with, mbind, ST_bind, time_Now_UnixMilli, load.
  simpl. by rewrite He.
Qed.

(** [Update] reads the clock, binds its local copy, runs the statement and
    mirrors version and timestamp onto the handle when a row was affected. *)
Lemma Update_with_run stmt e w r :
  heap w !! e = Some r →
  Update_with stmt e w =
  match run_update stmt (bind_record (bound r (clock w (ticks w)))) (table w)
  with
  | inl err =>
      (set_ticks (S (ticks w)) w,
       inl (ProcessSQLErrorf err "Failed to update execution"))
  | inr (t, n) =>
      if bool_decide (n = 0)
      then (set_table t (set_ticks (S (ticks w)) w), inl ErrVersionConflict)
      else (set_heap (<[e := mirrored r (clock w (ticks w))]> (heap w))
                     (set_table t (set_ticks (S (ticks w)) w)), inr tt)
  end.
Proof.
  intros He. unfold Update_with, mbind, ST_bind, time_Now_UnixMilli, load.
  simpl. rewrite He. fold (bound r (clock w (ticks w))).
  unfold or_return, BindNamed, ExecContext, RowsAffected, mret, ST_ret. simpl.
  destruct (run_update _ _ _) as [err|[t n]]; [done|].
  simpl. case_bool_decide; [done|].
  unfold store_field. simpl. rewrite He. simpl.
  rewrite list_lookup_insert_eq by (by apply lookup_lt_Some in He).
  rewrite list_insert_insert_eq. reflexivity.
Qed.

Lemma hit_spec arg row :
  hit arg row
  = bool_decide (ID row = ID arg)
    && bool_decide (Version row = Version arg - 1).
Proof. reflexivity. Qed.

Lemma written_columns_eq :
  written_columns =
  [execution_status; execution_error; execution_event; execution_started;
   execution_finished; execution_updated; execution_version].
Proof. reflexivity. Qed.

(** The assignments of the statement copy the written columns from the
    bound record and leave every other column of the row alone. *)
Lemma assign_written arg row c :
  c ∈ written_columns →
  col (assign (items (upd_set executionUpdateStmt)) (bind_record arg) row) c
  = col arg c.
Proof.
  rewrite written_columns_eq. intros Hc.
  repeat (apply elem_of_cons in Hc as [->|Hc]; [reflexivity|]).
  by apply elem_of_nil in Hc.
Qed.

Lemma assign_frame arg row c :
  c ∉ written_columns →
  col (assign (items (upd_set executionUpdateStmt)) (bind_record arg) row) c
  = col row c.
Proof.
  rewrite written_columns_eq. intros Hc.
  destruct c; try reflexivity; exfalso; apply Hc; repeat constructor.
Qed.

(** A statement with the clauses of [executionUpdateStmt] either fails to
    parse or rewrites the rows its predicate matches. *)
Lemma run_update_same_clauses stmt arg t :
  same_clauses stmt →
  run_update stmt (bind_record arg) t = inl sqlSyntaxError
  ∨ run_update stmt (bind_record arg) t
    = inr ((λ r, if hit arg r
                 then assign (items (upd_set executionUpdateStmt))
                             (bind_record arg) r
                 else r) <$> t,
           Z.of_nat (length (List.filter (hit arg) t))).
Proof.
  intros [Hset Hwhere]. unfold run_update.
  destruct (parse_list (upd_set stmt)) as [asg|] eqn:Hp; [right|by left].
  apply parse_list_items in Hp. rewrite <- Hset, Hp.
  unfold hit, matching. by rewrite Hwhere.
Qed.

(** ** What the calls do to the table and to the heap *)

Lemma frame_refl t : frame t t.
Proof. induction t; constructor; [by intros c _ | done]. Qed.

Lemma frame_trans t1 t2 t3 : frame t1 t2 → frame t2 t3 → frame t1 t3.
Proof.
  intros H12. revert t3. induction H12 as [|a b l k Hab _ IH]; intros t3 H23.
  - inversion H23. constructor.
  - inversion H23 as [|b' c' k' m' Hbc Hrest]; subst. constructor.
    + intros c Hc. by rewrite Hbc, Hab.
    + by apply IH.
Qed.

Lemma frame_rewritten arg t :
  frame t ((λ r, if hit arg r
                 then assign (items (upd_set executionUpdateStmt))
                             (bind_record arg) r
                 else r) <$> t).
Proof.
  induction t as [|r t IH]; constructor; [|done].
  destruct (hit arg r); [|by intros c _].
  intros c Hc. by apply assign_frame.
Qed.

Lemma Update_with_frame stmt e w :
  same_clauses stmt → frame (table w) (table (Update_with stmt e w).1).
Proof.
  intros Hstmt. destruct (heap w !! e) as [r|] eqn:He.
  - rewrite (Update_with_run _ _ _ _ He).
    destruct (run_update_same_clauses stmt (bound r (clock w (ticks w)))
                (table w) Hstmt) as [-> | ->].
    + apply frame_refl.
    + case_bool_decide; apply frame_rewritten.
  - rewrite Update_with_nil by done. apply frame_refl.
Qed.

Lemma scan_rows_table cols rows w :
  table (scan_rows cols rows w).1 = table w.
Proof.
  revert w. induction rows as [|r rows IH]; intros w; [done|].
  simpl. unfold mbind, ST_bind.
  specialize (IH (set_heap (heap w ++ [scan cols r zero_Execution]) w)).
  by destruct (scan_rows cols rows _) as [w' [err|ps]].
Qed.

Lemma run_select_find pipelineID executionNum t :
  run_select findQueryStmt (bind_args [VInt pipelineID; VInt executionNum]) t
  = inr (items executionColumns,
         List.filter (found_by pipelineID executionNum) t).
Proof. reflexivity. Qed.

(** [Find] allocates a record and scans the first matching row into it;
    without a matching row it reports that the resource was not found. *)
Lemma Find_run pipelineID executionNum w :
  Find pipelineID executionNum w =
  match List.filter (found_by pipelineID executionNum) (table w) with
  | [] => (set_heap (heap w ++ [zero_Execution]) w, inl ErrResourceNotFound)
  | row :: _ =>
      (set_heap (heap w ++ [scanned row]) w, inr (length (heap w)))
  end.
Proof.
  unfold Find, mbind, ST_bind, new, or_return, GetContext.
  rewrite run_select_find.
  change (table (set_heap (heap w ++ [zero_Execution]) w)) with (table w).
  destruct (List.filter _ (table w)) as [|row rows]; [done|].
  cbn [heap set_heap].
  rewrite (alter_app_r_alt _ _ _ (length (heap w))) by lia.
  by rewrite Nat.sub_diag.
Qed.

Lemma Find_table pipelineID executionNum w :
  table (Find pipelineID executionNum w).1 = table w.
Proof. rewrite Find_run. by destruct (List.filter _ _). Qed.

Lemma Find_next_id pipelineID executionNum w :
  next_id (Find pipelineID executionNum w).1 = next_id w.
Proof. rewrite Find_run. by destruct (List.filter _ _). Qed.

(** [Find] leaves every record there was and adds one. *)
Lemma Find_heap pipelineID executionNum w :
  length (heap (Find pipelineID executionNum w).1) = S (length (heap w))
  ∧ keeps (length (heap w)) w (Find pipelineID executionNum w).1.
Proof.
  rewrite Find_run. unfold keeps.
  destruct (List.filter _ _); simpl; rewrite length_app; simpl;
    (split; [lia|]); intros q Hq; by apply lookup_app_l.
Qed.

Lemma Update_with_heap_error stmt e w w' err :
  Update_with stmt e w = (w', inl err) → heap w' = heap w.
Proof.
  destruct (heap w !! e) as [r|] eqn:He.
  - rewrite (Update_with_run _ _ _ _ He).
    destruct (run_update _ _ _) as [err'|[t n]]; [by intros [= <- _]|].
    case_bool_decide; [by intros [= <- _] | done].
  - rewrite Update_with_nil by done. by intros [= <- _].
Qed.

Lemma Update_with_heap_commit stmt e w w' r :
  heap w !! e = Some r →
  Update_with stmt e w = (w', inr tt) →
  heap w' = <[e := mirrored r (clock w (ticks w))]> (heap w).
Proof.
  intros He. rewrite (Update_with_run _ _ _ _ He).
  destruct (run_update _ _ _) as [err'|[t n]]; [done|].
  case_bool_decide; [done | by intros [= <-]].
Qed.

(** In either case [Update] writes to no record but the one it has the
    handle of, and adds none. *)
Lemma Update_with_heap stmt e w :
  length (heap (Update_with stmt e w).1) = length (heap w)
  ∧ ∀ q, q ≠ e → heap (Update_with stmt e w).1 !! q = heap w !! q.
Proof.
  destruct (Update_with stmt e w) as [w' [err|[]]] eqn:Hrun; simpl.
  - by rewrite (Update_with_heap_error _ _ _ _ _ Hrun).
  - destruct (heap w !! e) as [r|] eqn:He.
    + rewrite (Update_with_heap_commit _ _ _ _ _ He Hrun).
      split; [apply length_insert|].
      intros q Hq. by apply list_lookup_insert_ne.
    + rewrite Update_with_nil in Hrun by done. done.
Qed.

Lemma mirrored_fields r now :
  Version (mirrored r now) = wrap64 (Version r + 1)
  ∧ Updated (mirrored r now) = now
  ∧ ∀ c, c ≠ execution_version → c ≠ execution_updated →
         col (mirrored r now) c = col r c.
Proof.
  repeat split. intros c Hv Hu. unfold mirrored.
  by rewrite !col_setcol_ne.
Qed.

Lemma same_clauses_own : same_clauses executionUpdateStmt.
Proof. by split. Qed.

Lemma same_clauses_without_leading_comma :
  same_clauses (without_leading_comma executionUpdateStmt).
Proof. by split. Qed.

(** One turn of the loop, and so the whole loop, rewrites rows only
    through [Update]. *)
Lemma turn_frame stmt mutateFn e w w' t :
  same_clauses stmt → no_io mutateFn →
  turn (Update_with stmt) Find mutateFn e w = (w', t) →
  frame (table w) (table w').
Proof.
  intros Hstmt Hio. unfold turn.
  destruct (heap w !! e) as [v|] eqn:Hv; cycle 1.
  { unfold mbind, ST_bind, load. rewrite Hv. intros [= <- _].
    apply frame_refl. }
  rewrite (turn_copy _ _ _ Hv).
  pose proof (Hio (length (heap w)) (set_heap (heap w ++ [v]) w)) as [Hm _].
  destruct (mutateFn _ _) as [w2 [err|[]]]; simpl in Hm.
  { intros [= <- _]. rewrite Hm. apply frame_refl. }
  pose proof (Update_with_frame stmt (length (heap w)) w2 Hstmt) as Hu.
  rewrite Hm in Hu.
  destruct (Update_with stmt _ w2) as [w3 [err|[]]]; simpl in Hu;
    [|by intros [= <- _]].
  destruct (negb (is_version_conflict err)); [by intros [= <- _]|].
  unfold mbind, ST_bind, load.
  destruct (heap w3 !! e) as [v'|]; [|by intros [= <- _]].
  pose proof (Find_table (PipelineID v') (Number v') w3) as Hf.
  destruct (Find _ _ w3) as [w4 [err'|found]]; simpl in Hf;
    intros [= <- _]; by rewrite Hf.
Qed.

Lemma loop_frame stmt mutateFn fuel e w w' r :
  same_clauses stmt → no_io mutateFn →
  UpdateOptLock_with (Update_with stmt) Find mutateFn fuel e w = Some (w', r) →
  frame (table w) (table w').
Proof.
  intros Hstmt Hio. revert e w.
  induction fuel as [|fuel IH]; intros e w; [done|].
  rewrite loop_S.
  destruct (turn _ _ _ e w) as [w1 [e1|r1]] eqn:Ht;
    apply turn_frame in Ht; try done.
  - intros Hrest. eapply frame_trans; [done|]. by eapply IH.
  - by intros [= <- _].
Qed.

(** One turn of the loop writes to the copy it made and to the record
    [Find] allocated, both of them new. *)
Lemma turn_keeps stmt mutateFn n e w w' t :
  local_mutation mutateFn → (n ≤ length (heap w))%nat →
  turn (Update_with stmt) Find mutateFn e w = (w', t) →
  keeps n w w'
  ∧ (length (heap w) ≤ length (heap w'))%nat
  ∧ ∀ copy, t = Return (inr copy) →
            (length (heap w) ≤ copy < length (heap w'))%nat.
Proof.
  intros Hlocal Hn. unfold turn, keeps.
  destruct (heap w !! e) as [v|] eqn:Hv; cycle 1.
  { unfold mbind, ST_bind, load. rewrite Hv. intros [= <- <-].
    split; [done|]. split; [lia|done]. }
  rewrite (turn_copy _ _ _ Hv).
  set (w1 := set_heap (heap w ++ [v]) w).
  assert (Hlen1 : length (heap w1) = S (length (heap w)))
    by (simpl; rewrite length_app; simpl; lia).
  assert (H1 : ∀ q, (q < n)%nat → heap w1 !! q = heap w !! q)
    by (intros q Hq; apply lookup_app_l; lia).
  destruct (Hlocal (length (heap w)) w1) as [Hlen2 H2].
  destruct (mutateFn _ w1) as [w2 [err|[]]]; cbn [fst] in Hlen2, H2.
  { intros [= <- <-]. split; [|split; [lia|done]].
    intros q Hq. rewrite H2 by lia. by apply H1. }
  destruct (Update_with_heap stmt (length (heap w)) w2) as [Hlen3 H3].
  destruct (Update_with stmt _ w2) as [w3 [err|[]]]; cbn [fst] in Hlen3, H3;
    cycle 1.
  { intros [= <- <-]. split; [|split; [lia|intros copy [= <-]; lia]].
    intros q Hq. rewrite H3, H2 by lia. by apply H1. }
  destruct (negb (is_version_conflict err)).
  { intros [= <- <-]. split; [|split; [lia|done]].
    intros q Hq. rewrite H3, H2 by lia. by apply H1. }
  unfold mbind, ST_bind, load.
  destruct (heap w3 !! e) as [v'|].
  - destruct (Find_heap (PipelineID v') (Number v') w3) as [Hlen4 H4].
    destruct (Find _ _ w3) as [w4 [err'|found]]; cbn [fst] in Hlen4, H4;
      intros [= <- <-]; (split; [|split; [lia|done]]);
      intros q Hq; rewrite H4, H3, H2 by lia; by apply H1.
  - intros [= <- <-]. split; [|split; [lia|done]].
    intros q Hq. rewrite H3, H2 by lia. by apply H1.
Qed.

Lemma loop_keeps stmt mutateFn n fuel e w w' r :
  local_mutation mutateFn → (n ≤ length (heap w))%nat →
  UpdateOptLock_with (Update_with stmt) Find mutateFn fuel e w = Some (w', r) →
  keeps n w w'
  ∧ ∀ copy, r = inr copy → (n ≤ copy < length (heap w'))%nat.
Proof.
  intros Hlocal. revert e w.
  induction fuel as [|fuel IH]; intros e w Hn; [done|].
  rewrite loop_S.
  destruct (turn _ _ _ e w) as [w1 [e1|r1]] eqn:Ht;
    apply (turn_keeps _ _ n) in Ht as (Hk & Hlen & Hcopy); try done.
  - intros Hrest. apply IH in Hrest as [Hk' Hcopy']; [|lia].
    split; [|done]. intros q Hq. by rewrite Hk', Hk.
  - intros [= <- <-]. split; [done|].
    intros copy ->. specialize (Hcopy copy eq_refl). lia.
Qed.

Lemma retitle_no_io : no_io retitle.
Proof.
  intros p w. unfold retitle, mbind, ST_bind, store_field.
  destruct (heap w !! p) as [r|]; [|done]. simpl.
  by destruct (_ !! p).
Qed.

Lemma retitle_local : local_mutation retitle.
Proof.
  intros p w. unfold retitle, mbind, ST_bind, store_field.
  destruct (heap w !! p) as [r|] eqn:Hp; [|done]. simpl.
  rewrite list_lookup_insert_eq by (by apply lookup_lt_Some in Hp). simpl.
  rewrite !length_insert. split; [done|].
  intros q Hq. by rewrite !list_lookup_insert_ne.
Qed.

(** C9.  The SET clause of the statement of [Update] assigns status,
    error, event, started, finished, updated and version, and nothing
    else: whatever [Update] does to the table, every row keeps every other
    column, and so it is under [UpdateOptLock], whose mutation function
    only ever changes the copy in memory.  This holds wherever the commas
    of the SET clause stand, that is, whether or not the engine accepts
    the statement. *)
Theorem C9_Update_writes_only_its_columns stmt :
  same_clauses stmt →
  written_columns =
    [execution_status; execution_error; execution_event; execution_started;
     execution_finished; execution_updated; execution_version]
  ∧ (∀ e w, frame (table w) (table (Update_with stmt e w).1))
  ∧ (∀ mutateFn fuel e w w' r,
       no_io mutateFn →
       UpdateOptLock_with (Update_with stmt) Find mutateFn fuel e w
       = Some (w', r) →
       frame (table w) (table w')).
Proof.
  intros Hstmt. split; [reflexivity|]. split.
  - intros e w. by apply Update_with_frame.
  - intros mutateFn fuel e w w' r Hio Hrun. by eapply loop_frame.
Qed.

Lemma C9_Update_writes_only_its_columns_witness :
  (* the store's own statement *)
  frame (table w_build) (table (Update 0%nat w_build).1)
  (* the statement without the comma: the loop commits the status the
     mutation set, and the title it set stays in memory *)
  ∧ ∃ w' copy,
    UpdateOptLock_with (Update_with (without_leading_comma executionUpdateStmt))
                       Find retitle 1 0%nat w_build
    = Some (w', inr copy)
    ∧ frame (table w_build) (table w')
    ∧ (λ r, (col r execution_title, col r execution_status))
        <$> heap w' !! copy
      = Some (VText "release", VText "running")
    ∧ (λ r, (col r execution_title, col r execution_status, Version r))
        <$> table w' !! 0%nat
      = Some (VText "build", VText "running", 4).
Proof.
  split.
  { exact (proj1 (proj2 (C9_Update_writes_only_its_columns
                           executionUpdateStmt same_clauses_own))
                 0%nat w_build). }
  eexists _, _. split; [reflexivity|]. split.
  - apply (proj2 (proj2 (C9_Update_writes_only_its_columns
                           (without_leading_comma executionUpdateStmt)
                           same_clauses_without_leading_comma))
             retitle 1%nat 0%nat w_build _ (inr 1%nat) retitle_no_io).
    reflexivity.
  - split; reflexivity.
Defined.

(** C10.  [Update] works on a local copy.  When it returns an error, of
    whatever kind, the heap is what it was: the caller's record is
    unchanged in every field.  When it returns nil, the one change to the
    heap is in the caller's record, where [Version] has been stepped and
    [Updated] holds the clock reading; every other field is as before.
    [UpdateOptLock], run over a mutation function that writes to the copy
    it is handed, leaves every record that existed when it was called as
    it was, the one passed in among them, and the record it returns is a
    new one. *)
Theorem C10_Update_writes_the_handle_only_on_commit stmt e w w' :
  (∀ err, Update_with stmt e w = (w', inl err) → heap w' = heap w)
  ∧ (∀ r, heap w !! e = Some r →
          Update_with stmt e w = (w', inr tt) →
          heap w' = <[e := mirrored r (clock w (ticks w))]> (heap w)
          ∧ Version (mirrored r (clock w (ticks w))) = wrap64 (Version r + 1)
          ∧ Updated (mirrored r (clock w (ticks w))) = clock w (ticks w)
          ∧ ∀ c, c ≠ execution_version → c ≠ execution_updated →
                 col (mirrored r (clock w (ticks w))) c = col r c)
  ∧ (∀ mutateFn fuel res,
       local_mutation mutateFn →
       UpdateOptLock_with (Update_with stmt) Find mutateFn fuel e w
       = Some (w', res) →
       keeps (length (heap w)) w w'
       ∧ ∀ copy, res = inr copy →
                 (length (heap w) ≤ copy < length (heap w'))%nat).
Proof.
  split; [|split].
  - intros err. apply Update_with_heap_error.
  - intros r He Hrun. split; [by eapply Update_with_heap_commit|].
    apply mirrored_fields.
  - intros mutateFn fuel res Hlocal Hrun. by eapply loop_keeps.
Qed.

Lemma C10_Update_writes_the_handle_only_on_commit_witness :
  (* the store's own statement: an error, the handle as it was *)
  heap (Update 0%nat w_build).1 = heap w_build
  (* the statement without the comma: a commit, mirrored onto the handle *)
  ∧ heap (Update_with (without_leading_comma executionUpdateStmt)
                      0%nat w_build).1
    = [setcol execution_updated (VInt 1000)
         (setcol execution_version (VInt 4) build_v3)]
  (* the loop: the record passed in is kept, the one returned is new *)
  ∧ ∃ w',
      UpdateOptLock_with
        (Update_with (without_leading_comma executionUpdateStmt))
        Find retitle 1 0%nat w_build
      = Some (w', inr 1%nat)
      ∧ keeps 1 w_build w'.
Proof.
  split; [|split].
  - apply (proj1 (C10_Update_writes_the_handle_only_on_commit
                    executionUpdateStmt 0%nat w_build _)
                 (ErrSQL sqlSyntaxError "Failed to update execution")).
    reflexivity.
  - exact (proj1 (proj1 (proj2
             (C10_Update_writes_the_handle_only_on_commit
                (without_leading_comma executionUpdateStmt) 0%nat w_build
                (Update_with (without_leading_comma executionUpdateStmt)
                             0%nat w_build).1))
             build_v3 eq_refl eq_refl)).
  - eexists. split; [reflexivity|].
    refine (proj1 (proj2 (proj2 (C10_Update_writes_the_handle_only_on_commit
                                   (without_leading_comma executionUpdateStmt)
                                   0%nat w_build _))
                         retitle 1%nat (inr 1%nat) retitle_local _)).
    reflexivity.
Defined.

(** ** [Delete] *)

Lemma filter_found_by_deleted pipelineID executionNum t :
  List.filter (found_by pipelineID executionNum)
    (List.filter (λ r, negb (found_by pipelineID executionNum r)) t) = [].
Proof.
  induction t as [|r t IH]; [done|]. simpl.
  destruct (found_by pipelineID executionNum r) eqn:Hr; simpl; [done|].
  by rewrite Hr.
Qed.

Lemma filter_none_deleted pipelineID executionNum t :
  List.filter (found_by pipelineID executionNum) t = [] →
  List.filter (λ r, negb (found_by pipelineID executionNum r)) t = t.
Proof.
  induction t as [|r t IH]; [done|]. simpl.
  destruct (found_by pipelineID executionNum r); simpl; [done|].
  intros Ht. by rewrite IH.
Qed.

(** [Delete] runs its statement and returns nil; the number of rows
    affected is not looked at. *)
Lemma Delete_run pipelineID executionNum w :
  Delete pipelineID executionNum w
  = (set_table
       (List.filter (λ r, negb (found_by pipelineID executionNum r)) (table w))
       w,
     inr tt).
Proof. reflexivity. Qed.

(** C6, as stated, fails: on a store with no execution at all, [Delete]
    returns nil, not the not-found error. *)
Lemma C6_Delete_of_missing_returns_nil :
  List.filter (found_by 7 1) (table world0) = []
  ∧ Delete 7 1 world0 = (world0, inr tt)
  ∧ ¬ Delete_reports_missing.
Proof.
  split; [reflexivity|]. split; [reflexivity|].
  intros Hclaim. by specialize (Hclaim 7 1 world0 eq_refl).
Qed.

(** C6, amended.  [Delete] returns nil whether or not the identity exists.
    It removes the rows of that identity and no other, so with no such row
    the table is what it was; and in either case a [Find] on the same
    identity then returns the not-found error. *)
Theorem C6_Delete_is_unconditional pipelineID executionNum w :
  ∃ w',
    Delete pipelineID executionNum w = (w', inr tt)
    ∧ heap w' = heap w
    ∧ table w'
      = List.filter (λ r, negb (found_by pipelineID executionNum r)) (table w)
    ∧ (List.filter (found_by pipelineID executionNum) (table w) = [] →
       table w' = table w)
    ∧ (Find pipelineID executionNum w').2 = inl ErrResourceNotFound.
Proof.
  eexists. split; [apply Delete_run|]. simpl.
  split; [done|]. split; [done|]. split.
  - apply filter_none_deleted.
  - rewrite Find_run. simpl. by rewrite filter_found_by_deleted.
Qed.

(** The scenario of the spec for an existing identity: once deleted, the
    execution is gone and [Find] does not find it. *)
Example Delete_then_Find :
  (_ ← Delete 7 1; Find 7 1) w_build
  = (set_heap [build_v3; zero_Execution] (set_table [] w_build),
     inl ErrResourceNotFound).
Proof. reflexivity. Qed.

(** ** [Create] and [Find] *)

Lemma same_record_int64 a b :
  same_record a b →
  ID a = ID b ∧ PipelineID a = PipelineID b ∧ Number a = Number b
  ∧ Version a = Version b ∧ Updated a = Updated b.
Proof.
  intros Hab.
  pose proof (Hab execution_id) as [= ?].
  pose proof (Hab execution_pipeline_id) as [= ?].
  pose proof (Hab execution_number) as [= ?].
  pose proof (Hab execution_version) as [= ?].
  pose proof (Hab execution_updated) as [= ?].
  done.
Qed.

Lemma parse_executionColumns :
  parse_list executionColumns = Some (items executionColumns).
Proof. vm_compute. reflexivity. Qed.

Lemma parse_executionInsertColumns :
  parse_list executionInsertColumns = Some (items executionInsertColumns).
Proof. vm_compute. reflexivity. Qed.

Lemma parse_executionInsertValues :
  parse_list executionInsertValues = Some (items executionInsertValues).
Proof. vm_compute. reflexivity. Qed.

Lemma run_insert_execution r key t :
  run_insert executionInsertStmt (bind_record r) key t
  = if existsb (clashes (inserted key r)) t then inl sqlUniqueViolation
    else inr (t ++ [inserted key r], VInt key).
Proof.
  unfold run_insert. cbn [ins_columns ins_values ins_returning executionInsertStmt].
  rewrite parse_executionInsertColumns, parse_executionInsertValues.
  rewrite bool_decide_eq_true_2 by (vm_compute; reflexivity).
  fold (inserted key r).
  replace (col (inserted key r) execution_id) with (VInt key) by reflexivity.
  reflexivity.
Qed.

(** The row added carries the generated key and, in every other column,
    what the caller's record carries. *)
Lemma inserted_columns key r c :
  col (inserted key r) c = col (setcol execution_id (VInt key) r) c.
Proof. destruct c; reflexivity. Qed.

(** Scanning the columns of [executionColumns] copies the whole row. *)
Lemma scanned_columns row : same_record (scanned row) row.
Proof. intros c. destruct c; reflexivity. Qed.

Lemma no_clash_not_found key r t :
  existsb (clashes (inserted key r)) t = false →
  List.filter (found_by (PipelineID r) (Number r)) t = [].
Proof.
  induction t as [|r' t IH]; [done|]. simpl.
  intros [Hr' Ht]%orb_false_elim.
  apply orb_false_elim in Hr' as [_ Hr'].
  change (found_by (PipelineID r) (Number r) r' = false) in Hr'.
  rewrite Hr'. by apply IH.
Qed.

(** [Create] followed by [Find]: the record found is the caller's record
    with the generated key. *)
Lemma create_then_find_run r w :
  create_then_find r w =
  if existsb (clashes (inserted (next_id w) r)) (table w)
  then (set_heap (heap w ++ [r]) w, inl ErrDuplicate)
  else (set_next_id (next_id w + 1)
          (set_table (table w ++ [inserted (next_id w) r])
             (set_heap (heap w ++ [setcol execution_id (VInt (next_id w)) r;
                                   scanned (inserted (next_id w) r)]) w)),
        inr (scanned (inserted (next_id w) r))).
Proof.
  unfold create_then_find, mbind, ST_bind, new.
  unfold Create, mbind, ST_bind, load. cbn [heap set_heap].
  rewrite list_lookup_middle by done.
  unfold or_return, BindNamed, mret, ST_ret, QueryRowContext_Scan.
  cbn [table set_heap next_id]. rewrite run_insert_execution.
  destruct (existsb _ _) eqn:Hclash; [done|].
  unfold store_field. cbn [heap set_heap set_table set_next_id].
  rewrite list_lookup_middle by done.
  rewrite (insert_app_r_alt _ _ (length (heap w))) by lia.
  rewrite Nat.sub_diag.
  change (<[0%nat:=setcol execution_id (VInt (next_id w)) r]> [r])
    with [setcol execution_id (VInt (next_id w)) r].
  cbn [heap set_heap set_next_id set_table].
  rewrite list_lookup_middle by done.
  rewrite Find_run. cbn [heap table set_heap set_next_id set_table].
  change (PipelineID (setcol execution_id (VInt (next_id w)) r))
    with (PipelineID r).
  change (Number (setcol execution_id (VInt (next_id w)) r)) with (Number r).
  rewrite List.filter_app, (no_clash_not_found _ _ _ Hclash).
  assert (Hnew : found_by (PipelineID r) (Number r) (inserted (next_id w) r)
                 = true).
  { unfold found_by.
    change (PipelineID (inserted (next_id w) r)) with (PipelineID r).
    change (Number (inserted (next_id w) r)) with (Number r).
    by rewrite !bool_decide_eq_true_2. }
  cbn [List.filter app]. rewrite Hnew.
  rewrite <- app_assoc. cbn [app].
  rewrite length_app. cbn [length heap set_heap].
  rewrite (lookup_app_r _ _ (length (heap w) + 1)) by lia.
  replace (length (heap w) + 1 - length (heap w))%nat with 1%nat by lia.
  reflexivity.
Qed.

(** C7, as stated, fails in what it says of the store-assigned fields:
    [Create] assigns neither version nor updatedAt.  Two records that
    differ in these two fields only are persisted each with its own. *)
Lemma C7_Create_persists_the_callers_version :
  match (create_then_find (sample 7 1 0 500 "build") world0).2 with
  | inr found => Some (ID found, Version found, Updated found)
  | inl _ => None
  end = Some (1, 0, 500)
  ∧ match (create_then_find (sample 7 1 7 900 "build") world0).2 with
    | inr found => Some (ID found, Version found, Updated found)
    | inl _ => None
    end = Some (1, 7, 900)
  ∧ ¬ Create_assigns_version_and_timestamp.
Proof.
  split; [vm_compute; reflexivity|]. split; [vm_compute; reflexivity|].
  intros Hclaim.
  assert (Hrun : ∀ r, (create_then_find r world0).2
                      = inr (scanned (inserted 1 r)))
    by (intros r; by rewrite create_then_find_run).
  destruct (Hclaim (sample 7 1 0 500 "build") (sample 7 1 7 900 "build")
                   world0 _ _ (Hrun _) (Hrun _)) as [Hversion _].
  vm_compute in Hversion. discriminate.
Qed.

(** C7, amended.  After a successful [Create(r)], [Find] on the identity
    of [r] returns a record equal to [r] in every field but the generated
    identity, the one field [Create] assigns: version and updatedAt are
    persisted as the caller's record carries them. *)
Theorem C7_Create_then_Find_round_trip r w w' found :
  create_then_find r w = (w', inr found) →
  same_record found (setcol execution_id (VInt (next_id w)) r)
  ∧ ID found = next_id w
  ∧ Version found = Version r
  ∧ Updated found = Updated r
  ∧ ∀ c, c ≠ execution_id → col found c = col r c.
Proof.
  rewrite create_then_find_run.
  destruct (existsb _ _); [done|]. intros [= _ <-].
  assert (Hsame : same_record (scanned (inserted (next_id w) r))
                              (setcol execution_id (VInt (next_id w)) r)).
  { intros c. by rewrite scanned_columns, inserted_columns. }
  split; [done|].
  destruct (same_record_int64 _ _ Hsame) as (-> & _ & _ & -> & ->).
  repeat (split; [reflexivity|]).
  intros c Hc. rewrite Hsame. by apply col_setcol_ne.
Qed.

Lemma C7_Create_then_Find_round_trip_witness :
  ∃ w',
    create_then_find (sample 7 1 7 900 "build") world0
    = (w', inr (scanned (inserted 1 (sample 7 1 7 900 "build"))))
    ∧ ID (scanned (inserted 1 (sample 7 1 7 900 "build"))) = 1
    ∧ Version (scanned (inserted 1 (sample 7 1 7 900 "build"))) = 7
    ∧ Updated (scanned (inserted 1 (sample 7 1 7 900 "build"))) = 900
    ∧ col (scanned (inserted 1 (sample 7 1 7 900 "build"))) execution_title
      = VText "build".
Proof.
  eexists. split; [exact (create_then_find_run _ world0)|].
  destruct (C7_Create_then_Find_round_trip
              (sample 7 1 7 900 "build") world0 _ _
              (create_then_find_run _ world0))
    as (_ & Hid & Hversion & Hupdated & Hrest).
  split; [exact Hid|]. split; [exact Hversion|]. split; [exact Hupdated|].
  exact (Hrest execution_title ltac:(discriminate)).
Defined.

(** ** [List] and [Count] *)

Lemma scan_rows_run cols rows w :
  scan_rows cols rows w
  = (set_heap (heap w ++ ((λ r, scan cols r zero_Execution) <$> rows)) w,
     inr (seq (length (heap w)) (length rows))).
Proof.
  revert w. induction rows as [|r rows IH]; intros w.
  - simpl. unfold mret, ST_ret, set_heap. rewrite app_nil_r. by destruct w.
  - simpl. unfold mbind, ST_bind. rewrite IH.
    unfold mret, ST_ret, set_heap. simpl.
    rewrite <- app_assoc, length_app. simpl.
    by rewrite Nat.add_1_r.
Qed.

(** The text [fmt.Sprint] makes of the pipeline ID selects the rows of
    that pipeline. *)
Lemma matching_pipeline_text pipelineID t :
  matching (bind_args [VText (pretty pipelineID)])
           (Eq (Col execution_pipeline_id) (Positional 1)) t
  = of_pipeline pipelineID t.
Proof.
  unfold matching, of_pipeline. apply List.filter_ext. intros r. simpl.
  apply bool_decide_ext. split; [by intros ?%(inj pretty) | by intros ->].
Qed.

Lemma List_run pipelineID pagination w :
  List pipelineID pagination w
  = let page :=
      take (Z.to_nat (Size pagination))
           (drop (Z.to_nat ((Page pagination - 1) * Size pagination))
                 (of_pipeline pipelineID (table w))) in
    (set_heap (heap w ++ (scanned <$> page)) w,
     inr (seq (length (heap w)) (length page))).
Proof.
  unfold List, or_return, SelectContext, run_select.
  cbn [sel_columns sel_where sel_limit sel_offset].
  rewrite parse_executionColumns, matching_pipeline_text.
  unfold Limit, Offset. by rewrite scan_rows_run.
Qed.

Lemma Count_run pipelineID w :
  Count pipelineID w
  = (w, inr (Z.of_nat (length (of_pipeline pipelineID (table w))))).
Proof. reflexivity. Qed.

(** C8.  For a page and a size of at least 1, [List] hands out one record
    per matching row at the offsets (page-1)*size, ..., (page-1)*size +
    size - 1 of the store order, in that order, each equal to its row in
    every field, and no other; [Count] is the number of all matching
    rows. *)
Theorem C8_List_returns_the_page pipelineID pagination w :
  1 ≤ Page pagination → 1 ≤ Size pagination →
  ∃ w' handles,
    List pipelineID pagination w = (w', inr handles)
    ∧ table w' = table w
    ∧ (length handles ≤ Z.to_nat (Size pagination))%nat
    ∧ (∀ i, 0 ≤ i < Size pagination →
         match handles !! Z.to_nat i with
         | Some q =>
             ∃ record row,
               heap w' !! q = Some record
               ∧ of_pipeline pipelineID (table w)
                   !! Z.to_nat ((Page pagination - 1) * Size pagination + i)
                 = Some row
               ∧ same_record record row
         | None =>
             of_pipeline pipelineID (table w)
               !! Z.to_nat ((Page pagination - 1) * Size pagination + i)
             = None
         end)
    ∧ Count pipelineID w
      = (w, inr (Z.of_nat (length (of_pipeline pipelineID (table w))))).
Proof.
  intros Hpage Hsize. rewrite List_run.
  set (hits := of_pipeline pipelineID (table w)).
  set (first := Z.to_nat ((Page pagination - 1) * Size pagination)).
  set (page := take (Z.to_nat (Size pagination)) (drop first hits)).
  eexists _, _. split; [reflexivity|]. split; [reflexivity|].
  split; [rewrite length_seq; unfold page; rewrite length_take; lia|].
  split; [|apply Count_run].
  intros i Hi.
  assert (Hat : page !! Z.to_nat i
                = hits !! Z.to_nat ((Page pagination - 1) * Size pagination + i)).
  { unfold page. rewrite lookup_take_lt by lia. rewrite lookup_drop.
    f_equal. unfold first. rewrite Z2Nat.inj_add by nia. done. }
  destruct (page !! Z.to_nat i) as [row|] eqn:Hrow.
  - rewrite lookup_seq_lt by (by apply lookup_lt_Some in Hrow).
    exists (scanned row), row. split; [|split; [done|apply scanned_columns]].
    cbn [heap set_heap]. rewrite lookup_app_r by lia.
    replace (length (heap w) + Z.to_nat i - length (heap w))%nat
      with (Z.to_nat i) by lia.
    by rewrite list_lookup_fmap, Hrow.
  - rewrite lookup_seq_ge by (by apply lookup_ge_None in Hrow). done.
Qed.

Lemma C8_List_returns_the_page_witness :
  ∃ w' handles,
    List 7 {| Page := 2; Size := 10 |} w_25 = (w', inr handles)
    ∧ table w' = table w_25
    ∧ (length handles ≤ 10)%nat
    ∧ (∀ i, 0 ≤ i < 10 →
         match handles !! Z.to_nat i with
         | Some q =>
             ∃ record row,
               heap w' !! q = Some record
               ∧ of_pipeline 7 (table w_25) !! Z.to_nat ((2 - 1) * 10 + i)
                 = Some row
               ∧ same_record record row
         | None =>
             of_pipeline 7 (table w_25) !! Z.to_nat ((2 - 1) * 10 + i) = None
         end)
    ∧ Count 7 w_25
      = (w_25, inr (Z.of_nat (length (of_pipeline 7 (table w_25))))).
Proof.
  apply (C8_List_returns_the_page 7 {| Page := 2; Size := 10 |} w_25).
  - simpl. lia.
  - simpl. lia.
Defined.

(** The scenario of the spec: page 2 of size 10 over 25 matching
    executions is the executions numbered 11 to 20, and the count is 25. *)
Example List_page_2_of_25 :
  match List 7 {| Page := 2; Size := 10 |} w_25 with
  | (w', inr handles) => Some ((λ q, Number <$> heap w' !! q) <$> handles)
  | (_, inl _) => None
  end = Some (Some <$> [11; 12; 13; 14; 15; 16; 17; 18; 19; 20])
  ∧ (Count 7 w_25).2 = inr 25.
Proof. vm_compute. done. Qed.

(** ** Versions over a sequence of operations *)

Lemma commits_app id log1 log2 :
  commits id (log1 ++ log2) = commits id log1 + commits id log2.
Proof.
  unfold commits. rewrite List.filter_app, length_app. lia.
Qed.

Lemma commits_nonneg id log : 0 ≤ commits id log.
Proof. unfold commits. lia. Qed.

Lemma same_ID (l : list Execution) r1 r2 :
  NoDup (ID <$> l) → r1 ∈ l → r2 ∈ l → ID r1 = ID r2 → r1 = r2.
Proof.
  induction l as [|r l IH]; [by intros _ ?%elem_of_nil|].
  rewrite fmap_cons, NoDup_cons.
  intros [Hr Hl] [->|H1]%elem_of_cons [->|H2]%elem_of_cons Hid; try done.
  - destruct Hr. rewrite Hid. by apply list_elem_of_fmap_2.
  - destruct Hr. rewrite <- Hid. by apply list_elem_of_fmap_2.
  - by apply IH.
Qed.

Lemma persisted_unique t id v v' :
  NoDup (ID <$> t) → persisted t id v → persisted t id v' → v = v'.
Proof.
  intros Hnodup (r & Hr & Hid & <-) (r' & Hr' & Hid' & <-).
  by rewrite (same_ID t r r' Hnodup Hr Hr') by congruence.
Qed.

Lemma stepped_same w w' :
  table w' = table w → next_id w' = next_id w → stepped [] w w'.
Proof.
  intros Ht Hn [Hnodup Hbelow]. unfold wf. rewrite Ht, Hn.
  split; [done|]. split; [lia|].
  intros id v' _ Hv'. exists v'. split; [done|]. unfold commits. simpl. lia.
Qed.

Lemma stepped_proper log w w' v v' :
  table v = table w → next_id v = next_id w →
  table v' = table w' → next_id v' = next_id w' →
  stepped log w w' → stepped log v v'.
Proof.
  unfold stepped, wf. intros -> -> -> ->. done.
Qed.

Lemma stepped_trans log1 log2 w w1 w2 :
  stepped log1 w w1 → stepped log2 w1 w2 → stepped (log1 ++ log2) w w2.
Proof.
  intros H1 H2 Hwf. destruct (H1 Hwf) as (Hwf1 & Hn1 & Hv1).
  destruct (H2 Hwf1) as (Hwf2 & Hn2 & Hv2).
  split; [done|]. split; [lia|].
  intros id v2 Hid Hp2.
  destruct (Hv2 id v2 ltac:(lia) Hp2) as (v1 & Hp1 & ->).
  destruct (Hv1 id v1 Hid Hp1) as (v & Hp & ->).
  exists v. split; [done|]. rewrite commits_app. lia.
Qed.

Lemma rewritten_ID arg row : ID (rewritten arg row) = ID row.
Proof.
  unfold rewritten. destruct (hit arg row); [|done].
  assert (Hc : execution_id ∉ written_columns).
  { rewrite written_columns_eq. intros Hin.
    repeat (apply elem_of_cons in Hin as [?|Hin]; [discriminate|]).
    by apply elem_of_nil in Hin. }
  exact (f_equal int_of (assign_frame arg row execution_id Hc)).
Qed.

Lemma rewritten_hit arg row :
  hit arg row = true →
  ID row = ID arg ∧ Version (rewritten arg row) = Version row + 1.
Proof.
  intros Hhit. unfold rewritten. rewrite Hhit.
  rewrite hit_spec in Hhit.
  apply andb_true_iff in Hhit as [Hid%bool_decide_eq_true Hv%bool_decide_eq_true].
  split; [done|].
  assert (Hc : execution_version ∈ written_columns)
    by (rewrite written_columns_eq; repeat constructor).
  pose proof (f_equal int_of (assign_written arg row execution_version Hc))
    as Hversion.
  change (Version (assign (items (upd_set executionUpdateStmt))
                          (bind_record arg) row) = Version arg) in Hversion.
  lia.
Qed.

Lemma rewritten_miss arg row : hit arg row = false → rewritten arg row = row.
Proof. intros Hmiss. unfold rewritten. by rewrite Hmiss. Qed.

Lemma rewritten_no_hit arg t :
  List.filter (hit arg) t = [] → rewritten arg <$> t = t.
Proof.
  induction t as [|r t IH]; [done|]. rewrite fmap_cons. cbn [List.filter].
  destruct (hit arg r) eqn:Hr; [done|].
  intros Ht. by rewrite rewritten_miss, IH.
Qed.

(** [Update] and the table: an error leaves it as it was; a commit has
    rewritten the rows the predicate matched, of which there was one at
    least, and the handle then carries the key it was called with. *)
Lemma Update_with_table stmt e w :
  same_clauses stmt →
  next_id (Update_with stmt e w).1 = next_id w
  ∧ match (Update_with stmt e w).2 with
    | inl _ => table (Update_with stmt e w).1 = table w
    | inr _ =>
        ∃ r, heap w !! e = Some r
             ∧ List.filter (hit (bound r (clock w (ticks w)))) (table w) ≠ []
             ∧ table (Update_with stmt e w).1
               = rewritten (bound r (clock w (ticks w))) <$> table w
             ∧ committed_on (Update_with stmt e w).1 e = [ID r]
    end.
Proof.
  intros Hstmt. destruct (heap w !! e) as [r|] eqn:He; cycle 1.
  { by rewrite Update_with_nil. }
  rewrite (Update_with_run _ _ _ _ He).
  destruct (run_update_same_clauses stmt (bound r (clock w (ticks w)))
              (table w) Hstmt) as [-> | ->]; [done|].
  fold (rewritten (bound r (clock w (ticks w)))).
  case_bool_decide as Hcount; simpl.
  - split; [done|]. apply rewritten_no_hit.
    by destruct (List.filter _ _).
  - split; [done|]. exists r. split; [done|]. split.
    + intros Hnone. by rewrite Hnone in Hcount.
    + split; [done|]. unfold committed_on. simpl.
      by rewrite list_lookup_insert_eq by (by apply lookup_lt_Some in He).
Qed.

Lemma commits_one id x :
  commits id [x] = if bool_decide (id = x) then 1 else 0.
Proof.
  unfold commits. simpl. case_bool_decide as Hx.
  - by rewrite (proj2 (Z.eqb_eq id x) Hx).
  - by rewrite (proj2 (Z.eqb_neq id x) Hx).
Qed.

Lemma stepped_committed arg w w' :
  table w' = rewritten arg <$> table w →
  next_id w' = next_id w →
  List.filter (hit arg) (table w) ≠ [] →
  stepped [ID arg] w w'.
Proof.
  intros Ht Hn Hsome [Hnodup Hbelow]. unfold wf. rewrite Ht, Hn.
  assert (Hids : ID <$> (rewritten arg <$> table w) = ID <$> table w).
  { rewrite <- list_fmap_compose. apply list_fmap_ext.
    intros i r _. apply rewritten_ID. }
  split; [split|].
  - by rewrite Hids.
  - apply Forall_fmap. eapply Forall_impl; [done|].
    intros r Hr. simpl. by rewrite rewritten_ID.
  - split; [lia|]. intros id v' _ (r' & Hr' & Hid & <-).
    apply list_elem_of_fmap in Hr' as (r & -> & Hr).
    rewrite rewritten_ID in Hid.
    exists (Version r). split; [by exists r|].
    rewrite commits_one. destruct (hit arg r) eqn:Hhit.
    + destruct (rewritten_hit _ _ Hhit) as [Hkey ->].
      rewrite bool_decide_eq_true_2 by congruence. done.
    + rewrite rewritten_miss by done.
      rewrite bool_decide_eq_false_2; [lia|]. intros Hkey.
      destruct (List.filter (hit arg) (table w)) as [|r2 rest] eqn:Hfilter;
        [done|].
      assert (Hr2 : In r2 (List.filter (hit arg) (table w)))
        by (rewrite Hfilter; by left).
      apply List.filter_In in Hr2 as [Hin Hhit2].
      destruct (rewritten_hit _ _ Hhit2) as [Hkey2 _].
      assert (r2 = r) as ->.
      { apply (same_ID (table w)); [done| |done|congruence].
        by apply list_elem_of_In. }
      congruence.
Qed.

(** [Create] binds the record, adds the row unless it clashes with one
    that is there, and writes the generated key into the handle. *)
Lemma Create_run e w :
  Create e w =
  match heap w !! e with
  | None => (w, inl ErrNilDereference)
  | Some r =>
      if existsb (clashes (inserted (next_id w) r)) (table w)
      then (w, inl ErrDuplicate)
      else (set_heap (<[e := setcol execution_id (VInt (next_id w)) r]>
                        (heap w))
              (set_next_id (next_id w + 1)
                 (set_table (table w ++ [inserted (next_id w) r]) w)),
            inr tt)
  end.
Proof.
  unfold Create, mbind, ST_bind, load.
  destruct (heap w !! e) as [r|] eqn:He; [|done].
  unfold or_return, BindNamed, mret, ST_ret, QueryRowContext_Scan.
  rewrite run_insert_execution.
  destruct (existsb _ _); [done|].
  unfold store_field. cbn [heap set_heap set_table set_next_id].
  by rewrite He.
Qed.

Lemma inserted_ID key r : ID (inserted key r) = key.
Proof. reflexivity. Qed.

Lemma stepped_Create e w : stepped [] w (Create e w).1.
Proof.
  rewrite Create_run. destruct (heap w !! e) as [r|]; [|by apply stepped_same].
  destruct (existsb _ _); [by apply stepped_same|].
  intros [Hnodup Hbelow]. unfold wf. simpl.
  split; [split|].
  - rewrite fmap_app, fmap_cons, fmap_nil, inserted_ID.
    apply NoDup_app. split; [done|]. split; [|apply NoDup_singleton].
    intros id Hid ->%list_elem_of_singleton.
    apply list_elem_of_fmap in Hid as (r' & Hkey & Hr').
    rewrite Forall_forall in Hbelow. specialize (Hbelow r' Hr'). lia.
  - apply Forall_app. split.
    + eapply Forall_impl; [done|]. intros r' Hr'. simpl in *. lia.
    + apply Forall_singleton. rewrite inserted_ID. lia.
  - split; [lia|]. intros id v' Hid (r' & Hr' & Hkey & <-).
    exists (Version r'). split; [|unfold commits; simpl; lia].
    apply elem_of_app in Hr' as [Hr'|Hr'%list_elem_of_singleton].
    + by exists r'.
    + subst r'. rewrite inserted_ID in Hkey. lia.
Qed.

Lemma stepped_Delete pipelineID executionNum w :
  stepped [] w (Delete pipelineID executionNum w).1.
Proof.
  rewrite Delete_run. intros [Hnodup Hbelow]. unfold wf. simpl.
  set (keep := λ r, negb (found_by pipelineID executionNum r)).
  assert (Hsub : ∀ r, r ∈ List.filter keep (table w) → r ∈ table w).
  { intros r Hr%list_elem_of_In. apply List.filter_In in Hr as [Hr _].
    by apply list_elem_of_In. }
  split; [split|].
  - clear Hbelow Hsub. induction (table w) as [|r t IH]; [done|].
    rewrite fmap_cons in Hnodup. apply NoDup_cons in Hnodup as [Hr Ht].
    simpl. destruct (keep r); [|by apply IH].
    rewrite fmap_cons. apply NoDup_cons. split; [|by apply IH].
    intros Hin. apply Hr. apply list_elem_of_fmap in Hin as (r' & -> & Hr').
    apply list_elem_of_fmap_2. apply list_elem_of_In in Hr'.
    apply List.filter_In in Hr' as [Hr' _]. by apply list_elem_of_In.
  - rewrite Forall_forall in *. intros r Hr. by apply Hbelow, Hsub.
  - split; [lia|]. intros id v' _ (r & Hr & Hkey & <-).
    exists (Version r). split; [|unfold commits; simpl; lia].
    exists r. by split; [apply Hsub|].
Qed.

Lemma stepped_Update stmt e w :
  same_clauses stmt →
  stepped (match (Update_with stmt e w).2 with
           | inr _ => committed_on (Update_with stmt e w).1 e
           | inl _ => []
           end) w (Update_with stmt e w).1.
Proof.
  intros Hstmt. destruct (Update_with_table stmt e w Hstmt) as [Hn Ht].
  destruct (Update_with stmt e w) as [w' [err|[]]]; simpl in *.
  - by apply stepped_same.
  - destruct Ht as (r & He & Hsome & Ht & ->).
    by apply (stepped_committed (bound r (clock w (ticks w)))).
Qed.

(** One turn of the loop moves versions as its [Update] does. *)
Lemma turn_stepped stmt mutateFn e w w' t :
  same_clauses stmt → no_io mutateFn →
  turn (Update_with stmt) Find mutateFn e w = (w', t) →
  stepped (match t with
           | Return (inr copy) => committed_on w' copy
           | _ => []
           end) w w'.
Proof.
  intros Hstmt Hio. unfold turn.
  destruct (heap w !! e) as [v|] eqn:Hv; cycle 1.
  { unfold mbind, ST_bind, load. rewrite Hv. intros [= <- <-].
    by apply stepped_same. }
  rewrite (turn_copy _ _ _ Hv).
  destruct (Hio (length (heap w)) (set_heap (heap w ++ [v]) w)) as [Ht2 Hn2].
  destruct (mutateFn _ _) as [w2 [err|[]]]; simpl in Ht2, Hn2.
  { intros [= <- <-]. by apply stepped_same. }
  pose proof (stepped_Update stmt (length (heap w)) w2 Hstmt) as Hu.
  destruct (Update_with stmt _ w2) as [w3 [err|[]]]; cbn [fst snd] in Hu;
    cycle 1.
  { intros [= <- <-]. by apply (stepped_proper _ w2 w3). }
  destruct (negb (is_version_conflict err)).
  { intros [= <- <-]. by apply (stepped_proper _ w2 w3). }
  unfold mbind, ST_bind, load.
  destruct (heap w3 !! e) as [v'|]; cycle 1.
  { intros [= <- <-]. by apply (stepped_proper _ w2 w3). }
  pose proof (Find_table (PipelineID v') (Number v') w3) as Ht4.
  pose proof (Find_next_id (PipelineID v') (Number v') w3) as Hn4.
  destruct (Find _ _ w3) as [w4 [err'|found]]; simpl in Ht4, Hn4;
    intros [= <- <-]; by apply (stepped_proper _ w2 w3).
Qed.

Lemma loop_stepped stmt mutateFn fuel e w w' res :
  same_clauses stmt → no_io mutateFn →
  UpdateOptLock_with (Update_with stmt) Find mutateFn fuel e w
  = Some (w', res) →
  stepped (match res with
           | inr copy => committed_on w' copy
           | inl _ => []
           end) w w'.
Proof.
  intros Hstmt Hio. revert e w.
  induction fuel as [|fuel IH]; intros e w; [done|].
  rewrite loop_S.
  destruct (turn _ _ _ e w) as [w1 [e1|r1]] eqn:Ht;
    apply turn_stepped in Ht; try done.
  - intros Hrest. apply IH in Hrest.
    by apply (stepped_trans [] _ w w1 w').
  - by intros [= <- <-].
Qed.

Lemma run_op_stepped stmt op w w' log :
  same_clauses stmt → well_behaved op →
  run_op stmt op w = Some (w', log) → stepped log w w'.
Proof.
  intros Hstmt Hop. destruct op; cbn [run_op well_behaved] in *.
  - intros [= <- <-]. by apply stepped_same.
  - intros [= <- <-]. apply stepped_same;
      [apply Find_table | apply Find_next_id].
  - intros [= <- <-]. apply stepped_Create.
  - pose proof (stepped_Update stmt e w Hstmt) as Hu.
    destruct (Update_with stmt e w) as [w1 [err|[]]];
      by intros [= <- <-].
  - destruct (UpdateOptLock_with _ _ _ _ _ _) as [[w1 [err|copy]]|] eqn:Hrun;
      [| |done]; intros [= <- <-];
      by apply (loop_stepped _ _ _ _ _ _ _ Hstmt Hop Hrun).
  - intros [= <- <-]. rewrite List_run. by apply stepped_same.
  - intros [= <- <-]. by apply stepped_same.
  - intros [= <- <-]. apply stepped_Delete.
Qed.

Lemma run_stepped stmt ops w w' log :
  same_clauses stmt → Forall well_behaved ops →
  run stmt ops w = Some (w', log) → stepped log w w'.
Proof.
  intros Hstmt Hops. revert w log.
  induction Hops as [|op ops Hop _ IH]; intros w log; simpl.
  - intros [= <- <-]. by apply stepped_same.
  - destruct (run_op stmt op w) as [[w1 log1]|] eqn:Hop1; [|done].
    destruct (run stmt ops w1) as [[w2 log2]|] eqn:Hrest; [|done].
    intros [= <- <-]. eapply stepped_trans.
    + by eapply run_op_stepped.
    + by apply IH.
Qed.

(** C5.  Over any sequence of store operations, whatever the callers
    write into their records in between, the persisted version of a
    record moves by the number of updates committed on it, one step each:
    it is computed from the persisted version, it never decreases, and
    where no update was committed on the record it is what it was.  This
    holds wherever the commas of the SET clause stand; under the statement
    as it is written no update is ever committed. *)
Theorem C5_version_counts_commits stmt ops w w' log id v v' :
  same_clauses stmt → Forall well_behaved ops → wf w →
  run stmt ops w = Some (w', log) →
  persisted (table w) id v → persisted (table w') id v' →
  v' = v + commits id log ∧ v ≤ v'.
Proof.
  intros Hstmt Hops Hwf Hrun Hv Hv'.
  destruct (run_stepped _ _ _ _ _ Hstmt Hops Hrun Hwf) as (_ & _ & Hstep).
  assert (Hid : id < next_id w).
  { destruct Hv as (r & Hr & <- & _). destruct Hwf as [_ Hbelow].
    rewrite Forall_forall in Hbelow. by apply Hbelow. }
  destruct (Hstep id v' Hid Hv') as (v0 & Hv0 & ->).
  rewrite (persisted_unique _ _ _ _ (proj1 Hwf) Hv Hv0).
  pose proof (commits_nonneg id log). lia.
Qed.

Lemma busy_day_well_behaved : Forall well_behaved busy_day.
Proof.
  unfold busy_day.
  repeat (apply Forall_cons; split;
          [first [exact I | exact retitle_no_io]|]).
  apply Forall_nil_2.
Qed.

Lemma w_build_wf : wf w_build.
Proof.
  split.
  - apply NoDup_singleton.
  - apply Forall_singleton. reflexivity.
Qed.

(** What that sequence leaves: the log of its two commits, and the one
    execution at version 5. *)
Lemma busy_day_outcome :
  match run (without_leading_comma executionUpdateStmt) busy_day w_build with
  | Some (w', log) => Some ((λ r, (ID r, Version r)) <$> table w', log)
  | None => None
  end = Some ([(1, 5)], [1; 1]).
Proof. vm_compute. reflexivity. Qed.

Lemma C5_version_counts_commits_witness :
  ∃ w' log,
    run (without_leading_comma executionUpdateStmt) busy_day w_build
    = Some (w', log)
    ∧ log = [1; 1]
    ∧ persisted (table w_build) 1 3
    ∧ persisted (table w') 1 5
    ∧ 5 = 3 + commits 1 log ∧ 3 ≤ 5.
Proof.
  pose proof busy_day_outcome as Hout.
  destruct (run (without_leading_comma executionUpdateStmt) busy_day w_build)
    as [[w' log]|] eqn:Hrun; [|discriminate].
  injection Hout as Hrows Hlog.
  exists w', log. split; [reflexivity|]. split; [exact Hlog|].
  assert (Hbefore : persisted (table w_build) 1 3).
  { exists build_v3. split; [apply list_elem_of_here|]. split; reflexivity. }
  assert (Hafter : persisted (table w') 1 5).
  { destruct (table w') as [|r [|r' rest]];
      [discriminate Hrows| |discriminate Hrows].
    injection Hrows as Hid Hversion.
    exists r. split; [apply list_elem_of_here|]. by split. }
  split; [exact Hbefore|]. split; [exact Hafter|].
  exact (C5_version_counts_commits
           (without_leading_comma executionUpdateStmt) busy_day w_build w' log
           1 3 5 same_clauses_without_leading_comma busy_day_well_behaved
           w_build_wf Hrun Hbefore Hafter).
Defined.

(** Under the statement as it is written the same calls commit nothing:
    the execution stays at version 3. *)
Example busy_day_as_written :
  match run executionUpdateStmt busy_day w_build with
  | Some (w', log) => Some (Version <$> table w', log)
  | None => None
  end = Some ([3], []).
Proof. vm_compute. reflexivity. Qed.

(** ** The contract of [Update] once its statement parses

    What C1 and C2 ask of [Update] is what its statement does as soon as
    the engine accepts it, that is, with the opening comma of the SET
    clause gone. *)

Lemma wrap64_int64 z : int64 z → wrap64 z = z.
Proof.
  unfold int64, min_int64, max_int64, wrap64. intros Hz.
  rewrite Z.mod_small by lia. lia.
Qed.

Lemma run_update_parsed stmt arg t :
  same_clauses stmt → is_Some (parse_list (upd_set stmt)) →
  run_update stmt (bind_record arg) t
  = inr (rewritten arg <$> t, Z.of_nat (length (List.filter (hit arg) t))).
Proof.
  intros Hstmt [asg Hp].
  destruct (run_update_same_clauses stmt arg t Hstmt) as [Hrun|Hrun]; [|done].
  unfold run_update in Hrun. by rewrite Hp in Hrun.
Qed.

(** Called with the persisted version, [Update] commits: the row goes up
    by one version and takes the clock reading, and both are mirrored
    onto the handle. *)
Lemma Update_with_commits stmt e w r row :
  same_clauses stmt → is_Some (parse_list (upd_set stmt)) →
  heap w !! e = Some r →
  row ∈ table w → ID row = ID r → Version row = Version r →
  int64 (Version r + 1) →
  ∃ w',
    Update_with stmt e w = (w', inr tt)
    ∧ table w' = rewritten (bound r (clock w (ticks w))) <$> table w
    ∧ Version (rewritten (bound r (clock w (ticks w))) row) = Version r + 1
    ∧ Updated (rewritten (bound r (clock w (ticks w))) row)
      = clock w (ticks w)
    ∧ heap w' = <[e := mirrored r (clock w (ticks w))]> (heap w)
    ∧ Version (mirrored r (clock w (ticks w))) = Version r + 1
    ∧ Updated (mirrored r (clock w (ticks w))) = clock w (ticks w).
Proof.
  intros Hstmt Hparse He Hrow Hid Hversion Hrange.
  set (now := clock w (ticks w)).
  assert (Hhit : hit (bound r now) row = true).
  { rewrite hit_spec. apply andb_true_iff.
    split; apply bool_decide_eq_true; [done|].
    change (Version (bound r now)) with (wrap64 (Version r + 1)).
    rewrite wrap64_int64 by done. lia. }
  rewrite (Update_with_run _ _ _ _ He), run_update_parsed by done.
  fold now. rewrite bool_decide_eq_false_2; cycle 1.
  { apply list_elem_of_In in Hrow.
    assert (Hin : In row (List.filter (hit (bound r now)) (table w)))
      by (by apply List.filter_In).
    destruct (List.filter _ _); [done|]. simpl. lia. }
  eexists. split; [reflexivity|]. split; [reflexivity|].
  destruct (rewritten_hit _ _ Hhit) as [_ Hstep].
  split; [lia|]. split.
  - unfold rewritten. rewrite Hhit.
    assert (Hc : execution_updated ∈ written_columns)
      by (rewrite written_columns_eq; repeat constructor).
    exact (f_equal int_of
             (assign_written (bound r now) row execution_updated Hc)).
  - split; [reflexivity|].
    destruct (mirrored_fields r now) as (-> & -> & _).
    by rewrite wrap64_int64.
Qed.

(** Called with any other version, or on a record that is gone, it
    reports the version conflict and the table is what it was. *)
Lemma Update_with_conflicts stmt e w r :
  same_clauses stmt → is_Some (parse_list (upd_set stmt)) →
  heap w !! e = Some r →
  int64 (Version r) → Forall (λ row, int64 (Version row)) (table w) →
  (∀ row, row ∈ table w → ID row = ID r → Version row ≠ Version r) →
  Update_with stmt e w = (set_ticks (S (ticks w)) w, inl ErrVersionConflict).
Proof.
  intros Hstmt Hparse He Hr Hrows Hstale.
  set (now := clock w (ticks w)).
  assert (Hnone : List.filter (hit (bound r now)) (table w) = []).
  { destruct (List.filter _ _) as [|row rest] eqn:Hfilter; [done|].
    assert (Hin : In row (List.filter (hit (bound r now)) (table w)))
      by (rewrite Hfilter; by left).
    apply List.filter_In in Hin as [Hrow%list_elem_of_In Hhit].
    rewrite hit_spec in Hhit. apply andb_true_iff in Hhit
      as [Hid%bool_decide_eq_true Hv%bool_decide_eq_true].
    change (Version (bound r now)) with (wrap64 (Version r + 1)) in Hv.
    change (ID (bound r now)) with (ID r) in Hid.
    rewrite Forall_forall in Hrows. specialize (Hrows row Hrow).
    destruct (decide (Version r = max_int64)) as [Hmax|Hmax].
    - rewrite Hmax in Hv. change (wrap64 (max_int64 + 1)) with min_int64 in Hv.
      unfold int64 in Hrows. lia.
    - rewrite wrap64_int64 in Hv by (unfold int64 in *; lia).
      destruct (Hstale row Hrow Hid). lia. }
  rewrite (Update_with_run _ _ _ _ He), run_update_parsed by done.
  fold now. rewrite Hnone, rewritten_no_hit by done. simpl.
  by destruct w.
Qed.

(** * Further properties of the execution store *)

(** X1.  [Update], with the statement as it is written, never commits:
    for every handle, nil or not, and every world it returns an error that
    [errors.Is] does not take for a version conflict, and what it leaves
    is the world it found with the clock read once; no row and no record
    has changed. *)
Theorem Update_never_commits e w :
  ∃ err,
    Update e w = (set_ticks (S (ticks w)) w, inl err)
    ∧ is_version_conflict err = false.
Proof.
  destruct (heap w !! e) as [r|] eqn:He.
  - eexists. split; [by eapply Update_rejected|done].
  - eexists. split; [by apply Update_with_nil|done].
Qed.

(** X2.  So [UpdateOptLock], as the store has it, never gets past its
    first turn: whatever the mutation function and however many turns it
    is given, it returns an error, never a record; the turn is the same
    under every [Find], which is therefore never called; and a mutation
    function with no I/O of its own leaves the table as it was. *)
Theorem UpdateOptLock_never_commits mutateFn fuel e w :
  ∃ w' err,
    UpdateOptLock mutateFn (S fuel) e w = Some (w', inl err)
    ∧ (∀ Find', UpdateOptLock_with Update Find' mutateFn (S fuel) e w
                = Some (w', inl err))
    ∧ (no_io mutateFn → table w' = table w).
Proof.
  assert (Hturn : ∃ w' err, ∀ Find',
             turn Update Find' mutateFn e w = (w', Return (inl err))
             ∧ (no_io mutateFn → table w' = table w)).
  { unfold turn. destruct (heap w !! e) as [v|] eqn:Hv; cycle 1.
    { exists w, ErrNilDereference. intros F'.
      unfold mbind, ST_bind, load. by rewrite Hv. }
    rewrite (turn_copy _ _ _ Hv).
    destruct (mutateFn (length (heap w)) (set_heap (heap w ++ [v]) w))
      as [w2 [err|[]]] eqn:Hm.
    { exists w2, err. intros F'. split; [done|]. intros Hio.
      destruct (Hio (length (heap w)) (set_heap (heap w ++ [v]) w))
        as [Ht _]. by rewrite Hm in Ht. }
    destruct (Update_never_commits (length (heap w)) w2)
      as (err & Hu & Herr).
    exists (set_ticks (S (ticks w2)) w2), err. intros F'.
    rewrite Hu, Herr. split; [done|]. intros Hio.
    destruct (Hio (length (heap w)) (set_heap (heap w ++ [v]) w))
      as [Ht _]. by rewrite Hm in Ht. }
  destruct Hturn as (w' & err & Hturn). exists w', err.
  split; [|split].
  - unfold UpdateOptLock. rewrite loop_S. by rewrite (proj1 (Hturn Find)).
  - intros F'. rewrite loop_S. by rewrite (proj1 (Hturn F')).
  - apply (Hturn Find).
Qed.

Lemma filter_first {A} (f : A → bool) (l : list A) x rest :
  List.filter f l = x :: rest →
  ∃ before after,
    l = before ++ x :: after
    ∧ Forall (λ y, f y = false) before
    ∧ f x = true.
Proof.
  induction l as [|y l IH]; [done|]. simpl.
  destruct (f y) eqn:Hy.
  - intros [= -> _]. by exists [], l.
  - intros (before & after & -> & Hbefore & Hx)%IH.
    exists (y :: before), after. split; [done|]. split; [|done].
    by constructor.
Qed.

Lemma filter_nothing {A} (f : A → bool) (l : list A) :
  List.filter f l = [] → Forall (λ y, f y = false) l.
Proof.
  induction l as [|y l IH]; [done|]. simpl.
  destruct (f y) eqn:Hy; [done|]. intros Hl. constructor; [done|by apply IH].
Qed.

Lemma found_by_spec pipelineID executionNum r :
  found_by pipelineID executionNum r = true
  ↔ PipelineID r = pipelineID ∧ Number r = executionNum.
Proof.
  unfold found_by. rewrite andb_true_iff, !bool_decide_eq_true. done.
Qed.

(** X3.  [Find] is a lookup by pipeline and number.  It returns a record
    exactly when the table holds a row of that pipeline and number; the
    record is a new one, equal in every field to the first such row in
    store order.  Otherwise it returns an error and no row has that
    identity.  Either way the table, the key sequence and every record
    there was are as before. *)
Theorem Find_is_a_lookup pipelineID executionNum w :
  table (Find pipelineID executionNum w).1 = table w
  ∧ next_id (Find pipelineID executionNum w).1 = next_id w
  ∧ keeps (length (heap w)) w (Find pipelineID executionNum w).1
  ∧ match (Find pipelineID executionNum w).2 with
    | inr q =>
        q = length (heap w)
        ∧ ∃ record row before after,
            heap (Find pipelineID executionNum w).1 !! q = Some record
            ∧ same_record record row
            ∧ table w = before ++ row :: after
            ∧ PipelineID row = pipelineID ∧ Number row = executionNum
            ∧ Forall (λ r, ¬ (PipelineID r = pipelineID
                              ∧ Number r = executionNum)) before
    | inl err =>
        err = ErrResourceNotFound
        ∧ Forall (λ r, ¬ (PipelineID r = pipelineID
                          ∧ Number r = executionNum)) (table w)
    end.
Proof.
  split; [apply Find_table|]. split; [apply Find_next_id|].
  split; [apply Find_heap|].
  rewrite Find_run.
  destruct (List.filter _ (table w)) as [|row rest] eqn:Hfilter; simpl.
  - split; [done|]. apply filter_nothing in Hfilter.
    eapply Forall_impl; [done|]. intros r Hr Hfound%found_by_spec.
    simpl in Hr. congruence.
  - split; [done|].
    apply filter_first in Hfilter as (before & after & Ht & Hbefore & Hrow).
    apply found_by_spec in Hrow as [Hp Hn].
    exists (scanned row), row, before, after.
    split; [by apply list_lookup_middle|].
    split; [apply scanned_columns|]. split; [done|].
    split; [done|]. split; [done|].
    eapply Forall_impl; [done|]. intros r Hr Hfound%found_by_spec.
    simpl in Hr. congruence.
Qed.

(** X4.  [Create] adds one row and writes one field.  When it returns
    nil, the table is the old one followed by a new row, the caller's
    record has changed in [ID] alone, and row and record agree in every
    column: each column of the INSERT list is bound to its own field.
    When it returns an error, the world is the one it found. *)
Theorem Create_adds_one_row e w :
  match Create e w with
  | (w', inr _) =>
      ∃ r record row,
        heap w !! e = Some r
        ∧ heap w' = <[e := record]> (heap w)
        ∧ (∀ c, c ≠ execution_id → col record c = col r c)
        ∧ table w' = table w ++ [row]
        ∧ same_record row record
  | (w', inl _) => w' = w
  end.
Proof.
  rewrite Create_run. destruct (heap w !! e) as [r|] eqn:He; [|done].
  destruct (existsb _ _); [done|].
  exists r, (setcol execution_id (VInt (next_id w)) r),
    (inserted (next_id w) r).
  split; [done|]. split; [done|]. split.
  - intros c Hc. by apply col_setcol_ne.
  - split; [done|]. intros c. apply inserted_columns.
Qed.

(** X5.  A successful [Create] raises the [Count] of the pipeline of the
    record by one and leaves the count of every other pipeline as it
    was. *)
Theorem Create_raises_Count e w w' r pipelineID :
  heap w !! e = Some r →
  Create e w = (w', inr tt) →
  ∃ n,
    (Count pipelineID w).2 = inr n
    ∧ (Count pipelineID w').2
      = inr (if bool_decide (PipelineID r = pipelineID) then n + 1 else n).
Proof.
  intros He. rewrite Create_run, He.
  destruct (existsb _ _); [done|]. intros [= <-].
  rewrite !Count_run. eexists. split; [reflexivity|]. simpl.
  unfold of_pipeline. rewrite List.filter_app, length_app. simpl.
  change (PipelineID (inserted (next_id w) r)) with (PipelineID r).
  case_bool_decide; simpl; f_equal; lia.
Qed.

Lemma Create_raises_Count_witness :
  ∃ n,
    (Count 7 (set_heap [sample 7 2 0 600 "test"] w_build)).2 = inr n
    ∧ (Count 7 (Create 0%nat
                  (set_heap [sample 7 2 0 600 "test"] w_build)).1).2
      = inr (if bool_decide (PipelineID (sample 7 2 0 600 "test") = 7)
             then n + 1 else n).
Proof.
  apply (Create_raises_Count 0%nat
           (set_heap [sample 7 2 0 600 "test"] w_build) _
           (sample 7 2 0 600 "test") 7).
  - reflexivity.
  - rewrite Create_run. reflexivity.
Defined.

Lemma filter_twice {A} (f : A → bool) (l : list A) :
  List.filter f (List.filter f l) = List.filter f l.
Proof.
  induction l as [|y l IH]; [done|]. simpl.
  destruct (f y) eqn:Hy; [|done]. simpl. by rewrite Hy, IH.
Qed.

Lemma filter_sublist {A} (f : A → bool) (l : list A) :
  sublist (List.filter f l) l.
Proof.
  induction l as [|y l IH]; [done|]. simpl.
  destruct (f y); by constructor.
Qed.

(** X6.  [Delete] removes the rows of the pipeline and number it is given
    and nothing else: a row is in the table afterwards exactly when it was
    there before and has another identity, the rows that stay keep their
    order, and no record in memory and no key is touched.  Deleting again
    changes nothing. *)
Theorem Delete_removes_that_identity_only pipelineID executionNum w :
  ∃ w',
    Delete pipelineID executionNum w = (w', inr tt)
    ∧ heap w' = heap w
    ∧ next_id w' = next_id w
    ∧ sublist (table w') (table w)
    ∧ (∀ r, r ∈ table w'
            ↔ r ∈ table w
              ∧ ¬ (PipelineID r = pipelineID ∧ Number r = executionNum))
    ∧ Delete pipelineID executionNum w' = (w', inr tt).
Proof.
  eexists. split; [apply Delete_run|]. simpl.
  split; [done|]. split; [done|]. split; [apply filter_sublist|]. split.
  - intros r. rewrite !list_elem_of_In, List.filter_In, negb_true_iff.
    rewrite <- found_by_spec.
    destruct (found_by _ _ r); intuition congruence.
  - rewrite Delete_run. simpl. by rewrite filter_twice.
Qed.

(** X7.  Whatever the page and size, what [List] returns is drawn from
    the table: the records are new ones, one per row of a selection of
    rows of the asked pipeline, in store order, each equal to its row in
    every field.  The table and every record there was are as before. *)
Theorem List_returns_rows_of_the_pipeline pipelineID pagination w w' handles :
  List pipelineID pagination w = (w', inr handles) →
  table w' = table w
  ∧ keeps (length (heap w)) w w'
  ∧ handles = seq (length (heap w)) (length handles)
  ∧ ∃ page,
      sublist page (table w)
      ∧ Forall (λ r, PipelineID r = pipelineID) page
      ∧ Forall2 (λ q row, ∃ record, heap w' !! q = Some record
                                    ∧ same_record record row)
                handles page.
Proof.
  rewrite List_run.
  set (page := take _ (drop _ _)). simpl. intros [= <- <-].
  split; [done|]. split.
  { intros q Hq. simpl. by apply lookup_app_l. }
  split; [by rewrite length_seq|].
  exists page. split; [|split].
  - unfold page. etrans; [apply sublist_take|].
    etrans; [apply sublist_drop|]. apply filter_sublist.
  - apply Forall_forall. intros r Hr.
    assert (Hin : r ∈ of_pipeline pipelineID (table w)).
    { eapply elem_of_sublist; [done|]. unfold page.
      etrans; [apply sublist_take|]. apply sublist_drop. }
    apply list_elem_of_In, List.filter_In in Hin as [_ Hp].
    by apply bool_decide_eq_true in Hp.
  - apply Forall2_same_length_lookup. split; [by rewrite length_seq|].
    intros i q row Hq Hrow.
    apply lookup_seq in Hq as [-> Hi].
    exists (scanned row). split; [|apply scanned_columns].
    simpl. rewrite lookup_app_r by lia.
    replace (length (heap w) + i - length (heap w))%nat with i by lia.
    by rewrite list_lookup_fmap, Hrow.
Qed.

Lemma List_returns_rows_of_the_pipeline_witness :
  ∃ w' handles,
    List 7 {| Page := 3; Size := 10 |} w_25 = (w', inr handles)
    ∧ table w' = table w_25
    ∧ keeps (length (heap w_25)) w_25 w'
    ∧ handles = seq (length (heap w_25)) (length handles)
    ∧ ∃ page,
        sublist page (table w_25)
        ∧ Forall (λ r, PipelineID r = 7) page
        ∧ Forall2 (λ q row, ∃ record, heap w' !! q = Some record
                                      ∧ same_record record row)
                  handles page.
Proof.
  eexists _, _. split; [apply List_run|].
  apply (List_returns_rows_of_the_pipeline 7 {| Page := 3; Size := 10 |} w_25).
  apply List_run.
Defined.

(** * Properties of the decision on the checks of a pull request *)

Section PRChecksFacts.
Import PRChecks.

Lemma checks_in_cons s check data :
  checks_in s (check :: data)
  = ((if bool_decide (status check = Known s) then 1 else 0)
     + checks_in s data)%nat.
Proof.
  unfold checks_in. simpl. by destruct (bool_decide _).
Qed.

(** The loop tallies the five states the [switch] names and no other. *)
Lemma for_checks_counts data c st :
  error (for_checks data c st).1 = (error c + checks_in ERROR data)%nat
  ∧ failure (for_checks data c st).1 = (failure c + checks_in FAILURE data)%nat
  ∧ pending (for_checks data c st).1 = (pending c + checks_in PENDING data)%nat
  ∧ running (for_checks data c st).1 = (running c + checks_in RUNNING data)%nat
  ∧ success (for_checks data c st).1 = (success c + checks_in SUCCESS data)%nat
  ∧ skipped (for_checks data c st).1 = skipped c
  ∧ killed (for_checks data c st).1 = killed c.
Proof.
  revert c st. induction data as [|[[[]|other]] data IH]; intros c st;
    [unfold checks_in; simpl; lia|..];
    rewrite !checks_in_cons; cbn [for_checks counted status];
    try (destruct (IH (bump PENDING c) (setCount (bump PENDING c) st))
           as (?&?&?&?&?&?&?));
    try (destruct (IH (bump RUNNING c) (setCount (bump RUNNING c) st))
           as (?&?&?&?&?&?&?));
    try (destruct (IH (bump SUCCESS c) (setCount (bump SUCCESS c) st))
           as (?&?&?&?&?&?&?));
    try (destruct (IH (bump FAILURE c) (setCount (bump FAILURE c) st))
           as (?&?&?&?&?&?&?));
    try (destruct (IH (bump ERROR c) (setCount (bump ERROR c) st))
           as (?&?&?&?&?&?&?));
    try (destruct (IH c st) as (?&?&?&?&?&?&?));
    simpl in *; repeat split; lia.
Qed.

Lemma for_checks_none data c st :
  forallb (λ check, bool_decide (counted (status check) = None)) data = true →
  for_checks data c st = (c, st).
Proof.
  induction data as [|check data IH]; [done|]. simpl.
  intros [Hcheck Hrest]%andb_true_iff.
  apply bool_decide_eq_true in Hcheck. rewrite Hcheck. by apply IH.
Qed.

(** The loop sets the tallies, each time it has counted a check, and
    nothing else. *)
Lemma for_checks_state data c st :
  color (for_checks data c st).2 = color st
  ∧ background (for_checks data c st).2 = background st
  ∧ message (for_checks data c st).2 = message st
  ∧ complete (for_checks data c st).2 = complete st
  ∧ count (for_checks data c st).2
    = if forallb (λ check, bool_decide (counted (status check) = None)) data
      then count st else (for_checks data c st).1.
Proof.
  revert c st. induction data as [|check data IH]; intros c st; [done|].
  cbn [for_checks forallb].
  destruct (counted (status check)) as [s|] eqn:Hs.
  - destruct (IH (bump s c) (setCount (bump s c) st))
      as (-> & -> & -> & -> & ->).
    rewrite bool_decide_eq_false_2 by done. simpl.
    repeat split.
    destruct (forallb _ data) eqn:Hrest; [|done].
    by rewrite for_checks_none.
  - destruct (IH c st) as (-> & -> & -> & -> & ->).
    by rewrite bool_decide_eq_true_2.
Qed.

Lemma has_checks_in s data : has s data ↔ checks_in s data ≠ 0%nat.
Proof.
  unfold has, checks_in. split.
  - intros (check & Hin & Hs) Hnone.
    apply length_zero_iff_nil in Hnone.
    assert (Hf : In check (List.filter
                (λ check, bool_decide (status check = Known s)) data)).
    { apply List.filter_In. split; [by apply list_elem_of_In|].
      by apply bool_decide_eq_true. }
    by rewrite Hnone in Hf.
  - destruct (List.filter _ data) as [|check rest] eqn:Hf; [done|]. intros _.
    assert (Hin : In check (List.filter
                (λ check, bool_decide (status check = Known s)) data))
      by (rewrite Hf; by left).
    apply List.filter_In in Hin as [Hin Hs]. exists check.
    split; [by apply list_elem_of_In|by apply bool_decide_eq_true in Hs].
Qed.

Lemma checks_in_le s data : (checks_in s data ≤ length data)%nat.
Proof.
  unfold checks_in. induction data as [|check data IH]; simpl; [lia|].
  destruct (bool_decide _); simpl; lia.
Qed.

(** What the callback works with once the loop is over. *)
Lemma after_the_loop data st :
  ∃ cnt st1,
    for_checks data DEFAULT_COUNTS st = (cnt, st1)
    ∧ error cnt = checks_in ERROR data
    ∧ failure cnt = checks_in FAILURE data
    ∧ pending cnt = checks_in PENDING data
    ∧ running cnt = checks_in RUNNING data
    ∧ success cnt = checks_in SUCCESS data
    ∧ skipped cnt = 0%nat
    ∧ killed cnt = 0%nat
    ∧ color st1 = color st
    ∧ background st1 = background st
    ∧ message st1 = message st
    ∧ count st1
      = if forallb (λ check, bool_decide (counted (status check) = None)) data
        then count st else cnt.
Proof.
  pose proof (for_checks_counts data DEFAULT_COUNTS st)
    as (He & Hf & Hp & Hr & Hs & Hsk & Hk).
  pose proof (for_checks_state data DEFAULT_COUNTS st)
    as (Hc & Hb & Hm & _ & Hcount).
  destruct (for_checks data DEFAULT_COUNTS st) as [cnt st1].
  exists cnt, st1. cbn [fst snd DEFAULT_COUNTS error failure pending running
                        success skipped killed] in *.
  repeat split; done.
Qed.

(** X8.  The overall status goes by severity, over the states the hook
    counts: error if any check is in error; else failure if any has
    failed; else running, else pending, if any is; and success only when
    some check has succeeded and none is in any of those four.  Killed
    and skipped checks are not counted, so the overall status is never
    one of these two, whatever the checks. *)
Theorem overall_status_by_severity data st :
  let overall := (decision (Some data) st).1 in
  (overall = Some ERROR ↔ has ERROR data)
  ∧ (overall = Some FAILURE ↔ ¬ has ERROR data ∧ has FAILURE data)
  ∧ (overall = Some RUNNING
     ↔ ¬ has ERROR data ∧ ¬ has FAILURE data ∧ has RUNNING data)
  ∧ (overall = Some PENDING
     ↔ ¬ has ERROR data ∧ ¬ has FAILURE data ∧ ¬ has RUNNING data
       ∧ has PENDING data)
  ∧ (overall = Some SUCCESS
     ↔ ¬ has ERROR data ∧ ¬ has FAILURE data ∧ ¬ has RUNNING data
       ∧ ¬ has PENDING data ∧ has SUCCESS data)
  ∧ overall ≠ Some KILLED
  ∧ overall ≠ Some SKIPPED.
Proof.
  intros overall. subst overall. rewrite !has_checks_in.
  destruct data as [|check data].
  { unfold checks_in. simpl. intuition congruence. }
  unfold decision.
  destruct (after_the_loop (check :: data) st)
    as (cnt & st1 & -> & -> & -> & -> & -> & -> & -> & -> & _).
  unfold decide_on.
  repeat case_bool_decide; cbn [fst]; intuition congruence.
Qed.

(** X9.  The flag that stops the polling is set exactly when there are
    check results and none of them is pending or running.  Without
    results, be it no response or an empty list, it is cleared, so the
    hook goes on polling. *)
Theorem complete_when_nothing_is_pending data st :
  complete (decision data st).2 = true
  ↔ ∃ checks,
      data = Some checks ∧ checks ≠ []
      ∧ ¬ has PENDING checks ∧ ¬ has RUNNING checks.
Proof.
  destruct data as [[|check data]|]; cycle 1.
  - unfold decision.
    destruct (after_the_loop (check :: data) st)
      as (cnt & st1 & -> & _ & _ & Hp & Hr & _).
    rewrite Hp, Hr.
    assert (Hflag : ∀ (b : bool) (x : option ExecutionState * State),
              complete (let '(_status, st) := x in
                        (_status, setComplete b st)).2 = b)
      by (by intros b [??]).
    rewrite Hflag. rewrite andb_true_iff, !negb_true_iff.
    rewrite !bool_decide_eq_false. split.
    + intros [Hnp Hnr]. exists (check :: data).
      rewrite !has_checks_in. done.
    + intros (checks & [= <-] & _ & Hnp & Hnr).
      rewrite has_checks_in in Hnp. rewrite has_checks_in in Hnr. tauto.
  - simpl. split; [done|]. by intros (checks & ? & _).
  - simpl. split; [done|]. by intros (checks & [= <-] & ? & _).
Qed.

Lemma counted_checks_in s data :
  checks_in s data ≠ 0%nat → counted (Known s) = Some s →
  forallb (λ check, bool_decide (counted (status check) = None)) data = false.
Proof.
  intros Hsome Hs. apply not_true_iff_false. intros Hall.
  apply has_checks_in in Hsome as (check & Hin & Hcheck).
  rewrite forallb_forall in Hall.
  specialize (Hall check (proj1 (list_elem_of_In _ _) Hin)).
  apply bool_decide_eq_true in Hall. congruence.
Qed.

Lemma nothing_counted data :
  checks_in ERROR data = 0%nat → checks_in FAILURE data = 0%nat →
  checks_in RUNNING data = 0%nat → checks_in PENDING data = 0%nat →
  checks_in SUCCESS data = 0%nat →
  forallb (λ check, bool_decide (counted (status check) = None)) data = true.
Proof.
  induction data as [|[[[]|other]] data IH]; [done|..];
    rewrite !checks_in_cons; simpl; intros; try lia; apply IH; lia.
Qed.

(** X10.  What the hook shows agrees with the checks.  When it settles on
    a status, the message is made from the number of checks in that state
    and the number of all checks, the first at least 1 and at most the
    second, and the tallies it stores are the numbers of checks in error,
    failed, pending, running and succeeded, with skipped and killed at 0.
    When it settles on none (every check is skipped, killed or of an
    unknown state) it stores nothing: tallies, colours and message are
    those of the render before, and the flag that stops the polling is
    set. *)
Theorem what_the_hook_shows data st :
  data ≠ [] →
  match decision (Some data) st with
  | (Some s, st') =>
      message st' = Substituted s (checks_in s data) (length data)
      ∧ (1 ≤ checks_in s data ≤ length data)%nat
      ∧ count st'
        = {| error := checks_in ERROR data;
             failure := checks_in FAILURE data;
             pending := checks_in PENDING data;
             running := checks_in RUNNING data;
             success := checks_in SUCCESS data;
             skipped := 0; killed := 0 |}
  | (None, st') =>
      count st' = count st
      ∧ color st' = color st
      ∧ background st' = background st
      ∧ message st' = message st
      ∧ complete st' = true
  end.
Proof.
  destruct data as [|check data]; [done|]. intros _.
  unfold decision.
  destruct (after_the_loop (check :: data) st)
    as (cnt & st1 & -> & He & Hf & Hp & Hr & Hs & Hsk & Hk
        & Hc & Hb & Hm & Hcount).
  set (checks := check :: data) in *.
  assert (Hcnt : cnt = {| error := checks_in ERROR checks;
                          failure := checks_in FAILURE checks;
                          pending := checks_in PENDING checks;
                          running := checks_in RUNNING checks;
                          success := checks_in SUCCESS checks;
                          skipped := 0; killed := 0 |})
    by (destruct cnt; simpl in *; congruence).
  unfold decide_on.
  repeat case_bool_decide; cbn [fst snd message count setMessage
    setBackground setColor setComplete color background complete tally];
    try lia;
    try (split; [congruence|]; split;
         [pose proof (checks_in_le ERROR checks);
          pose proof (checks_in_le FAILURE checks);
          pose proof (checks_in_le RUNNING checks);
          pose proof (checks_in_le PENDING checks);
          pose proof (checks_in_le SUCCESS checks); lia|];
         rewrite Hcount, <- Hcnt;
         first [ by rewrite (counted_checks_in ERROR) by (done || lia)
               | by rewrite (counted_checks_in FAILURE) by (done || lia)
               | by rewrite (counted_checks_in RUNNING) by (done || lia)
               | by rewrite (counted_checks_in PENDING) by (done || lia)
               | by rewrite (counted_checks_in SUCCESS) by (done || lia) ]).
  rewrite Hcount, nothing_counted by lia. done.
Qed.

Lemma what_the_hook_shows_witness :
  match decision (Some [ {| status := Known SUCCESS |};
                         {| status := Known SKIPPED |};
                         {| status := Known FAILURE |};
                         {| status := Known SUCCESS |} ]) initial with
  | (Some s, st') =>
      message st'
      = Substituted s
          (checks_in s [ {| status := Known SUCCESS |};
                         {| status := Known SKIPPED |};
                         {| status := Known FAILURE |};
                         {| status := Known SUCCESS |} ]) 4
      ∧ (1 ≤ checks_in s [ {| status := Known SUCCESS |};
                           {| status := Known SKIPPED |};
                           {| status := Known FAILURE |};
                           {| status := Known SUCCESS |} ] ≤ 4)%nat
      ∧ count st'
        = {| error := 0; failure := 1; pending := 0; running := 0;
             success := 2; skipped := 0; killed := 0 |}
  | (None, st') =>
      count st' = count initial
      ∧ color st' = color initial
      ∧ background st' = background initial
      ∧ message st' = message initial
      ∧ complete st' = true
  end.
Proof.
  apply (what_the_hook_shows
           [ {| status := Known SUCCESS |}; {| status := Known SKIPPED |};
             {| status := Known FAILURE |}; {| status := Known SUCCESS |} ]
           initial).
  discriminate.
Defined.

End PRChecksFacts.

(** * Properties of the write request of the git RPC client *)

Section GitRPCFacts.
Import GitRPC.

(** The loop fills the slots from [i] on, one for each entry, in the order
    it is given them. *)
Lemma for_range_fills entries filled :
  for_range entries (length filled)
    (filled ++ replicate (length entries) None)
  = Some (filled ++ ((λ kv, Some {| EnvVar_Name := kv.1;
                                    EnvVar_Value := kv.2 |}) <$> entries)).
Proof.
  revert filled. induction entries as [|[k v] entries IH]; intros filled.
  { by rewrite !app_nil_r. }
  cbn [for_range length replicate fmap list_fmap fst snd].
  rewrite decide_True by (rewrite length_app; simpl; lia).
  rewrite insert_app_r_alt, Nat.sub_diag by lia.
  cbn [insert list_insert].
  specialize (IH (filled ++ [Some {| EnvVar_Name := k; EnvVar_Value := v |}])).
  rewrite length_app, <- !app_assoc in IH. cbn [length app] in IH.
  by rewrite Nat.add_1_r in IH.
Qed.

(** X11.  Whatever the order in which the map of environment variables is
    visited, as long as every entry is visited once, building the write
    request does not index outside the slice it made, leaves no slot of it
    nil, and the variables of the request, read back as a map, are the map
    of the parameters: none is lost, doubled or changed.  The repository
    and the actor are copied. *)
Theorem mapToRPCWriteRequest_keeps_the_variables range p :
  range (EnvVars p) ≡ₚ map_to_list (EnvVars p) →
  ∃ vars,
    mapToRPCWriteRequest range p
    = Some {| RepoUid := RepoUID p;
              rpc_Actor := Some {| rpc_Name := Name (Actor p);
                                   rpc_Email := Email (Actor p) |};
              rpc_EnvVars := Some <$> vars |}
    ∧ length vars = size (EnvVars p)
    ∧ NoDup (EnvVar_Name <$> vars)
    ∧ list_to_map (entry <$> vars) = EnvVars p.
Proof.
  intros Hrange.
  exists ((λ kv, {| EnvVar_Name := kv.1; EnvVar_Value := kv.2 |})
            <$> range (EnvVars p)).
  assert (Hentries : entry <$> ((λ kv, {| EnvVar_Name := kv.1;
                                          EnvVar_Value := kv.2 |})
                                  <$> range (EnvVars p))
                     = range (EnvVars p)).
  { rewrite <- list_fmap_compose. rewrite <- (list_fmap_id (range _)) at 2.
    apply list_fmap_ext. by intros _ [??] _. }
  assert (Hnames : EnvVar_Name <$> ((λ kv, {| EnvVar_Name := kv.1;
                                              EnvVar_Value := kv.2 |})
                                      <$> range (EnvVars p))
                   = (range (EnvVars p)).*1).
  { rewrite <- list_fmap_compose. apply list_fmap_ext. by intros _ [??] _. }
  assert (Hsize : size (EnvVars p) = length (range (EnvVars p))).
  { by rewrite Hrange, length_map_to_list. }
  repeat split.
  - unfold mapToRPCWriteRequest. rewrite Hsize.
    pose proof (for_range_fills (range (EnvVars p)) []) as Hfill.
    cbn [length app] in Hfill. rewrite Hfill. cbn [mbind option_bind].
    by rewrite <- list_fmap_compose.
  - by rewrite length_fmap, Hsize.
  - rewrite Hnames, Hrange. apply NoDup_fst_map_to_list.
  - rewrite Hentries.
    rewrite (list_to_map_proper _ (map_to_list (EnvVars p))).
    + apply list_to_map_to_list.
    + rewrite Hrange. apply NoDup_fst_map_to_list.
    + done.
Qed.

Lemma mapToRPCWriteRequest_keeps_the_variables_witness :
  ∃ vars,
    mapToRPCWriteRequest map_to_list push_params
    = Some {| RepoUid := "repo-1";
              rpc_Actor := Some {| rpc_Name := "ada";
                                   rpc_Email := "ada@example.com" |};
              rpc_EnvVars := Some <$> vars |}
    ∧ length vars = size (EnvVars push_params)
    ∧ NoDup (EnvVar_Name <$> vars)
    ∧ list_to_map (entry <$> vars) = EnvVars push_params.
Proof.
  apply (mapToRPCWriteRequest_keeps_the_variables map_to_list push_params).
  reflexivity.
Defined.

End GitRPCFacts.

(** * Properties of the instance name of the server *)

Section ServerFacts.
Import Server.

Lemma sanitized_cases r :
  (65 ≤ r ≤ 90 ∧ sanitized r = r + 32)
  ∨ ((97 ≤ r ≤ 122 ∨ 48 ≤ r ≤ 57 ∨ r = 45 ∨ r = 46) ∧ sanitized r = r)
  ∨ (¬ 65 ≤ r ≤ 90 ∧ ¬ (97 ≤ r ≤ 122 ∨ 48 ≤ r ≤ 57 ∨ r = 45 ∨ r = 46)
     ∧ sanitized r = 95).
Proof.
  unfold sanitized, int32.
  change (rune "A") with 65. change (rune "Z") with 90.
  change (rune "a") with 97. change (rune "z") with 122.
  change (rune "0") with 48. change (rune "9") with 57.
  change (rune "-") with 45. change (rune ".") with 46.
  change (rune "_") with 95.
  change (2 ^ 31) with 2147483648. change (2 ^ 32) with 4294967296.
  repeat case_bool_decide.
  - left. rewrite Z.mod_small by lia. lia.
  - right. left. lia.
  - right. left. lia.
  - right. left. lia.
  - right. right. lia.
Qed.

(** X12.  The rune map of [getSanitizedMachineName] does what the comment
    above it says.  Every rune comes out as one of a-z, 0-9, '-', '.' or
    as '_'; those runes and '_' come out as they went in, so the map leaves
    a name of such runes as it is and applying it twice is applying it
    once; an upper-case letter comes out as a lower-case one; and '_' is
    what comes out of every other rune. *)
Theorem sanitized_runes r :
  (left_alone (sanitized r) ∨ sanitized r = rune "_")
  ∧ (left_alone r ∨ r = rune "_" → sanitized r = r)
  ∧ sanitized (sanitized r) = sanitized r
  ∧ (rune "A" ≤ r ≤ rune "Z" →
     rune "a" ≤ sanitized r ≤ rune "z" ∧ sanitized r = r + 32)
  ∧ (sanitized r = rune "_"
     ↔ ¬ left_alone r ∧ ¬ rune "A" ≤ r ≤ rune "Z").
Proof.
  pose proof (sanitized_cases r) as Hr.
  pose proof (sanitized_cases (sanitized r)) as Hrr.
  unfold left_alone.
  change (rune "A") with 65. change (rune "Z") with 90.
  change (rune "a") with 97. change (rune "z") with 122.
  change (rune "0") with 48. change (rune "9") with 57.
  change (rune "-") with 45. change (rune ".") with 46.
  change (rune "_") with 95.
  lia.
Qed.

Lemma sanitized_runes_witness :
  (left_alone (sanitized (rune "G")) ∨ sanitized (rune "G") = rune "_")
  ∧ (left_alone (rune "G") ∨ rune "G" = rune "_"
     → sanitized (rune "G") = rune "G")
  ∧ sanitized (sanitized (rune "G")) = sanitized (rune "G")
  ∧ (rune "A" ≤ rune "G" ≤ rune "Z" →
     rune "a" ≤ sanitized (rune "G") ≤ rune "z"
     ∧ sanitized (rune "G") = rune "G" + 32)
  ∧ (sanitized (rune "G") = rune "_"
     ↔ ¬ left_alone (rune "G") ∧ ¬ rune "A" ≤ rune "G" ≤ rune "Z").
Proof. exact (sanitized_runes (rune "G")). Defined.

End ServerFacts.

(** * Properties of the space controller *)

Section SpaceControllerFacts.
Import SpaceController.
Context {W SpaceFilter : Type} (c : Controller W SpaceFilter).

(** One step of a run: the next collaborator answers. *)
Local Ltac answer :=
  match goal with
  | |- context [spaceStore_FindByRef c ?a ?w] =>
      destruct (spaceStore_FindByRef c a w) as [? [?|?]] eqn:?
  | |- context [spaceStore_Count c ?a ?b ?w] =>
      destruct (spaceStore_Count c a b w) as [? [?|?]] eqn:?
  | |- context [spaceStore_List c ?a ?b ?w] =>
      destruct (spaceStore_List c a b w) as [? [?|?]] eqn:?
  | |- context [spaceStore_Update c ?a ?w] =>
      destruct (spaceStore_Update c a w) as [? [? [?|]]] eqn:?
  | |- context [spacePathStore_DeletePrimarySegment c ?a ?w] =>
      destruct (spacePathStore_DeletePrimarySegment c a w) as [? [?|]] eqn:?
  | |- context [spacePathStore_InsertSegment c ?a ?w] =>
      destruct (spacePathStore_InsertSegment c a w) as [? [?|]] eqn:?
  | |- context [apiauth_CheckSpace c ?a ?b ?d ?e ?w] =>
      destruct (apiauth_CheckSpace c a b d e w) as [? [?|]] eqn:?
  | |- context [uidCheck c ?a ?b ?w] =>
      destruct (uidCheck c a b w) as [? [?|]] eqn:?
  | |- context [time_Now c ?w] => destruct (time_Now c w) as [? ?] eqn:?
  | |- context [tx_Begin c ?a ?w] =>
      destruct (tx_Begin c a w) as [? [?|]] eqn:?
  | |- context [tx_Commit c ?w] =>
      destruct (tx_Commit c w) as [? [?|]] eqn:?
  | |- context [negb (bool_decide ?P)] =>
      destruct (decide P);
      [rewrite (bool_decide_eq_true_2 P) by done
      |rewrite (bool_decide_eq_false_2 P) by done]
  end.

Local Ltac run_calls :=
  unfold ListSpaces, ListSpacesNoAuth, Move, moveInner, sanitizeMoveInput,
    hasChanges, WithTx, wrapped, call, mbind, Ctl_bind, mret, Ctl_ret,
    nil_or, left_in_place;
  repeat (cbn [fst snd negb id Input_UID ID ParentID UID]; try answer).

(** X13.  [ListSpaces] only reads.  In every run it makes no call that
    writes, and when it returns spaces and a count, the calls it has made
    are exactly: the space looked up by its reference, the view permission
    checked on that space and granted, a read-only transaction begun, the
    children counted, then listed, and the transaction committed; the
    count and the spaces returned are the ones the store answered inside
    that transaction. *)
Theorem ListSpaces_only_reads session spaceRef filter w log :
  ∃ new,
    (ListSpaces c session spaceRef filter (w, log)).1.2 = log ++ new
    ∧ Forall (λ call, ¬ writes call) new
    ∧ ∀ spaces count,
        (ListSpaces c session spaceRef filter (w, log)).2
        = inr (spaces, count) →
        ∃ space,
          new = [ call_FindByRef spaceRef (inr space);
                  call_CheckSpace session space PermissionSpaceView true None;
                  call_Begin true None;
                  call_Count (ID space) filter (inr count);
                  call_List (ID space) filter (inr spaces);
                  call_Commit None ].
Proof.
  run_calls; rewrite <- ?app_assoc; cbn [app];
    (eexists; split; [reflexivity|]; split;
     [repeat (apply Forall_cons; split; [by intros []|]); apply Forall_nil_2|]);
    intros spaces count; try discriminate.
  intros [= <- <-]. by eexists.
Qed.

(** X14.  [Move] writes only after its checks.  If a run of it makes a
    call that writes, or begins the transaction for one, then before that
    call the space was found, the edit permission on it was checked and
    granted, and the new UID was checked, for a root space exactly when
    the space has no parent, and accepted; and the input carries a UID
    that differs from the one the space has. *)
Theorem Move_writes_only_after_its_checks session spaceRef input w log :
  ∃ new,
    (Move c session spaceRef input (w, log)).1.2 = log ++ new
    ∧ (Exists writes new →
       ∃ space uid rest,
         Input_UID input = Some uid
         ∧ uid ≠ UID space
         ∧ Forall (λ call, ¬ writes call) (take 3 new)
         ∧ new = [ call_FindByRef spaceRef (inr space);
                   call_CheckSpace session space PermissionSpaceEdit false
                     None;
                   call_uidCheck uid (bool_decide (ParentID space = 0)) None ]
                 ++ rest).
Proof.
  destruct input as [[uid|]]; run_calls; rewrite <- ?app_assoc; cbn [app];
    (eexists; split; [reflexivity|]); intros Hwrites;
    try (exfalso; revert Hwrites; rewrite !Exists_cons, Exists_nil;
         simpl; tauto);
    (eexists _, _, _; split; [reflexivity|]; split; [done|]; split;
     [cbn [take];
      repeat (apply Forall_cons; split; [by intros []|]); apply Forall_nil_2
     |reflexivity]).
Qed.

(** X15.  What [Move] has done when it returns a space.  Either there was
    nothing to change (the input has no UID, or the one the space has) and
    it returns the space as found, having made no call after its checks;
    or it has, in one transaction that it committed, deleted the primary
    path segment of the space, inserted a new primary segment, under the
    same parent and with the new UID, created by the principal of the
    session and with one time for created and updated, and asked the store
    to update the space with the new UID and otherwise as found; what it
    returns is the space as that update left it. *)
Theorem Move_returns_a_space session spaceRef input w log w' log' result :
  Move c session spaceRef input (w, log) = ((w', log'), inr result) →
  ∃ space,
    (hasChanges input space = false
     ∧ result = space
     ∧ log' = log ++ [ call_FindByRef spaceRef (inr space);
                       call_CheckSpace session space PermissionSpaceEdit
                         false None ]
                  ++ match Input_UID input with
                     | Some uid =>
                         [ call_uidCheck uid
                             (bool_decide (ParentID space = 0)) None ]
                     | None => []
                     end)
    ∨ (∃ uid now,
         Input_UID input = Some uid
         ∧ uid ≠ UID space
         ∧ log' = log ++
             [ call_FindByRef spaceRef (inr space);
               call_CheckSpace session space PermissionSpaceEdit false None;
               call_uidCheck uid (bool_decide (ParentID space = 0)) None;
               call_Begin false None;
               call_DeletePrimarySegment (ID space) None;
               call_Now now;
               call_InsertSegment
                 {| Segment_ParentID := ParentID space;
                    Segment_UID := uid;
                    SpaceID := ID space;
                    IsPrimary := true;
                    CreatedBy := Principal_ID session;
                    Created := now;
                    Updated := now |} None;
               call_Update
                 {| ID := ID space; ParentID := ParentID space; UID := uid |}
                 (result, None);
               call_Commit None ]).
Proof.
  destruct input as [[uid|]]; run_calls; rewrite <- ?app_assoc; cbn [app];
    intros [= <- <- <-] || intros [= <- <-] || intros [=].
  all: eexists; first
    [ left; refine (conj _ (conj eq_refl eq_refl)); unfold hasChanges;
      cbn [Input_UID]; by rewrite ?bool_decide_eq_false_2 by tauto
    | right; eexists _, _; split; [reflexivity|]; split; [done|];
      reflexivity ].
Qed.

End SpaceControllerFacts.

(** The theorems at work on collaborators that agree to everything. *)

Section SpaceControllerRuns.
Import SpaceController.

Lemma Move_writes_only_after_its_checks_witness :
  ∃ new,
    (Move agreeable {| Principal_ID := 3 |} "root"
          {| Input_UID := Some "new" |} (0%nat, [])).1.2 = [] ++ new
    ∧ (Exists writes new →
       ∃ space uid rest,
         Some "new" = Some uid
         ∧ uid ≠ UID space
         ∧ Forall (λ call, ¬ writes call) (take 3 new)
         ∧ new = [ call_FindByRef "root" (inr space);
                   call_CheckSpace {| Principal_ID := 3 |} space
                     PermissionSpaceEdit false None;
                   call_uidCheck uid (bool_decide (ParentID space = 0)) None ]
                 ++ rest).
Proof.
  exact (Move_writes_only_after_its_checks agreeable {| Principal_ID := 3 |}
           "root" {| Input_UID := Some "new" |} 0%nat []).
Defined.

Lemma Move_returns_a_space_witness :
  let session := {| Principal_ID := 3 |} in
  let input := {| Input_UID := Some "new" |} in
  let moved := {| ID := 7; ParentID := 0; UID := "new" |} in
  let log' : list (Call ()) :=
    [ call_FindByRef "root" (inr the_space);
      call_CheckSpace session the_space PermissionSpaceEdit false None;
      call_uidCheck "new" true None;
      call_Begin false None;
      call_DeletePrimarySegment 7 None;
      call_Now 1700000000000;
      call_InsertSegment
        {| Segment_ParentID := 0;
           Segment_UID := "new";
           SpaceID := 7;
           IsPrimary := true;
           CreatedBy := 3;
           Created := 1700000000000;
           Updated := 1700000000000 |} None;
      call_Update moved (moved, None);
      call_Commit None ] in
  Move agreeable session "root" input (0%nat, []) = ((3%nat, log'), inr moved)
  ∧ ∃ space,
      (hasChanges input space = false
       ∧ moved = space
       ∧ log' = [] ++ [ call_FindByRef "root" (inr space);
                        call_CheckSpace session space PermissionSpaceEdit
                          false None ]
                   ++ match Input_UID input with
                      | Some uid =>
                          [ call_uidCheck uid
                              (bool_decide (ParentID space = 0)) None ]
                      | None => []
                      end)
      ∨ (∃ uid now,
           Input_UID input = Some uid
           ∧ uid ≠ UID space
           ∧ log' = [] ++
               [ call_FindByRef "root" (inr space);
                 call_CheckSpace session space PermissionSpaceEdit false None;
                 call_uidCheck uid (bool_decide (ParentID space = 0)) None;
                 call_Begin false None;
                 call_DeletePrimarySegment (ID space) None;
                 call_Now now;
                 call_InsertSegment
                   {| Segment_ParentID := ParentID space;
                      Segment_UID := uid;
                      SpaceID := ID space;
                      IsPrimary := true;
                      CreatedBy := Principal_ID session;
                      Created := now;
                      Updated := now |} None;
                 call_Update
                   {| ID := ID space; ParentID := ParentID space;
                      UID := uid |}
                   (moved, None);
                 call_Commit None ]).
Proof.
  intros session input moved log'.
  assert (Hrun : Move agreeable session "root" input (0%nat, [])
                 = ((3%nat, log'), inr moved)) by reflexivity.
  split; [exact Hrun|].
  exact (Move_returns_a_space agreeable session "root" input 0%nat []
           3%nat log' moved Hrun).
Defined.

End SpaceControllerRuns.
